(** * Sprite sandbox: animation engine of [src/App.tsx]

    A shallow embedding of the execution engine of the block-based sprite
    sandbox: the continuous-motion stepper ([animate]), the pairwise collision
    resolver ([checkCollision], [handleCollisions]), the timed action
    sequencer, and the playback controller ([deleteSprite], [resetAll]).

    JavaScript numbers are IEEE 754 binary64 values; they are modelled by
    Rocq's primitive floats, so every arithmetic step below rounds exactly as
    the program does. *)

From Stdlib Require Import ZArith List Bool String Lia Sorted.
From Stdlib Require Import Floats DecimalString DecimalN.
Import ListNotations.

(* Decimal literals such as 0.1 denote the nearest binary64 value, as they
   do in the program. *)
Set Warnings "-inexact-float".

Local Open Scope string_scope.
Local Open Scope list_scope.

(** ** JavaScript number primitives *)

Module JS.

Abbreviation number := float.

(** [Math.max(a, b)]: NaN if either argument is NaN, and [+0] is larger
    than [-0]. *)
Definition max (a b : number) : number :=
  if is_nan a || is_nan b then nan
  else if (b <? a)%float then a
  else if (a <? b)%float then b
  else match classify a with NZero => b | _ => a end.

(** [Math.min(a, b)]: NaN if either argument is NaN, and [-0] is smaller
    than [+0]. *)
Definition min (a b : number) : number :=
  if is_nan a || is_nan b then nan
  else if (a <? b)%float then a
  else if (b <? a)%float then b
  else match classify b with NZero => b | _ => a end.

(** The [%] operator on numbers: the remainder of the truncating division,
    which takes the sign of the dividend and is always exact. *)
Definition rem (a b : number) : number :=
  match Prim2SF a, Prim2SF b with
  | S754_nan, _ | _, S754_nan => nan
  | S754_infinity _, _ => nan
  | _, S754_zero _ => nan
  | _, S754_infinity _ => a
  | S754_zero _, _ => a
  | S754_finite sa ma ea, S754_finite _ mb eb =>
      let e := Z.min ea eb in
      let r := Z.rem (Z.pos ma * 2 ^ (ea - e)) (Z.pos mb * 2 ^ (eb - e)) in
      SF2Prim (binary_normalize prec emax (cond_Zopp sa r) e sa)
  end.

(** The IEEE 754 comparison of two numbers; [None] when one is NaN. *)
Definition cmp (a b : number) : option comparison :=
  SFcompare (Prim2SF a) (Prim2SF b).

(** A zero or a normal or subnormal number, at the level of the format. *)
Definition finite (x : spec_float) : Prop :=
  match x with
  | S754_zero _ | S754_finite _ _ _ => True
  | _ => False
  end.

(** Truthiness of the comparison operators, as propositions. *)
Definition le (a b : number) : Prop := (a <=? b)%float = true.

End JS.

(** ** Data model *)

Inductive SpriteType := cat | dog | ball | human.

Inductive AnimationType :=
  move | turn | goto | say | think | moveX | moveY | size | random.

Module Animation.
Record t := mk {
  type : AnimationType;
  value : JS.number;
  duration : option JS.number;
  x : option JS.number;
  y : option JS.number;
  repeat : option JS.number
}.
End Animation.

Module ActionBlock.
Record t := mk {
  id : string;
  type : AnimationType;
  value : JS.number;
  duration : option JS.number;
  x : option JS.number;
  y : option JS.number;
  repeat : option JS.number;
  label : string
}.
End ActionBlock.

Module Sprite.
Record t := mk {
  id : string;
  type : SpriteType;
  x : JS.number;
  y : JS.number;
  direction : JS.number;
  saying : string;
  thinking : string;
  animation : list Animation.t;
  size : JS.number;
  velocityX : JS.number;
  velocityY : JS.number;
  isAnimating : bool
}.
End Sprite.

(** ** Geometry *)

Definition checkCollision (sprite1 sprite2 : Sprite.t) : bool :=
  let size1 := (48 * Sprite.size sprite1)%float in
  let size2 := (48 * Sprite.size sprite2)%float in
  (abs (Sprite.x sprite1 - Sprite.x sprite2) <? (size1 + size2) / 2)%float
  && (abs (Sprite.y sprite1 - Sprite.y sprite2) <? (size1 + size2) / 2)%float.

(** ** The Action Queue Store

    [actionBlocks] is a JavaScript object used as a map from sprite id to the
    sprite's queue.  Property order is insertion order ([Object.entries]
    walks it), so it is kept as an association list whose update replaces an
    existing key in place and appends a new one. *)

Definition ActionBlocks := list (string * list ActionBlock.t).

Fixpoint lookupBlocks (blocks : ActionBlocks) (spriteId : string)
  : option (list ActionBlock.t) :=
  match blocks with
  | [] => None
  | (k, q) :: rest =>
      if String.eqb k spriteId then Some q else lookupBlocks rest spriteId
  end.

(** [actionBlocks[spriteId] || []] *)
Definition blocksOrEmpty (blocks : ActionBlocks) (spriteId : string)
  : list ActionBlock.t :=
  match lookupBlocks blocks spriteId with
  | Some q => q
  | None => []
  end.

Fixpoint setBlocks (blocks : ActionBlocks) (spriteId : string)
  (q : list ActionBlock.t) : ActionBlocks :=
  match blocks with
  | [] => [(spriteId, q)]
  | (k, q0) :: rest =>
      if String.eqb k spriteId then (k, q) :: rest
      else (k, q0) :: setBlocks rest spriteId q
  end.

(** [{...prev, [k1]: v1, [k2]: v2, ...}] *)
Definition spreadBlocks (prev : ActionBlocks)
  (props : list (string * list ActionBlock.t)) : ActionBlocks :=
  fold_left (fun acc kv => setBlocks acc (fst kv) (snd kv)) props prev.

(** ** Deferred work

    The callbacks handed to [setTimeout], as data.  [RunAction] is the
    per-action timer of the sequencer ([last] records [index ===
    actions.length - 1]), [StopSprite] the timer that ends a sequence, and
    [ClearSaying] the collision resolver's message-clear timer. *)

Inductive Callback :=
| RunAction (spriteId : string) (action : ActionBlock.t) (last : bool)
| StopSprite (spriteId : string)
| ClearSaying (id1 id2 : string).

(** Side effects a state updater performs besides returning its value. *)
Inductive Effect :=
| SetTimeout (cb : Callback) (delay : Z)
| SetActionBlocks (props : list (string * list ActionBlock.t)).

(** ** Collision Resolver *)

(** Writing slot [i] of the array.  [handleCollisions] updates the sprite
    objects in place; every slot of the array holds an object of its own
    (each comes from [addSprite] or from a spread), so an update through
    [sprites[i]] is seen at slot [i] and nowhere else in the array.  The
    loops only use indices inside the array. *)
Fixpoint setAt {A : Type} (sprites : list A) (i : nat) (s : A) : list A :=
  match sprites, i with
  | [], _ => []
  | _ :: rest, O => s :: rest
  | s0 :: rest, S i' => s0 :: setAt rest i' s
  end.

(** The body of the inner loop of [handleCollisions] for the pair [(i, j)],
    [i < j].  [actionBlocks] is the store captured by the closure. *)
Definition resolvePair (actionBlocks : ActionBlocks) (i j : nat)
  (st : list Sprite.t * list Effect) : list Sprite.t * list Effect :=
  let '(sprites, effects) := st in
  match nth_error sprites i, nth_error sprites j with
  | Some si, Some sj =>
      if checkCollision si sj then
        (* Swap velocities *)
        let tempVelocityX := Sprite.velocityX si in
        let tempVelocityY := Sprite.velocityY si in
        let iVelocityX := Sprite.velocityX sj in
        let iVelocityY := Sprite.velocityY sj in
        let jVelocityX := tempVelocityX in
        let jVelocityY := tempVelocityY in
        (* Adjust positions to prevent sticking *)
        let dx := (Sprite.x sj - Sprite.x si)%float in
        let dy := (Sprite.y sj - Sprite.y si)%float in
        let distance := sqrt (dx * dx + dy * dy)%float in
        let minDistance :=
          ((48 * Sprite.size si + 48 * Sprite.size sj) / 2)%float in
        let '(ix, iy, jx, jy) :=
          if (distance <? minDistance)%float then
            let scale := ((minDistance - distance) / distance)%float in
            ((Sprite.x si - dx * scale / 2)%float,
             (Sprite.y si - dy * scale / 2)%float,
             (Sprite.x sj + dx * scale / 2)%float,
             (Sprite.y sj + dy * scale / 2)%float)
          else (Sprite.x si, Sprite.y si, Sprite.x sj, Sprite.y sj) in
        let si' :=
          Sprite.mk (Sprite.id si) (Sprite.type si) ix iy
            (Sprite.direction si) "Swapping!" (Sprite.thinking si)
            (Sprite.animation si) (Sprite.size si) iVelocityX iVelocityY
            (Sprite.isAnimating si) in
        let sj' :=
          Sprite.mk (Sprite.id sj) (Sprite.type sj) jx jy
            (Sprite.direction sj) "Bouncing!" (Sprite.thinking sj)
            (Sprite.animation sj) (Sprite.size sj) jVelocityX jVelocityY
            (Sprite.isAnimating sj) in
        (* Swap action blocks *)
        let sprite1Actions := blocksOrEmpty actionBlocks (Sprite.id si) in
        let sprite2Actions := blocksOrEmpty actionBlocks (Sprite.id sj) in
        (setAt (setAt sprites i si') j sj',
         effects ++
           [SetTimeout (ClearSaying (Sprite.id si) (Sprite.id sj)) 1000;
            SetActionBlocks [(Sprite.id si, sprite2Actions);
                             (Sprite.id sj, sprite1Actions)]])
      else st
  | _, _ => st
  end.

(** [for (let j = i + 1; j < sprites.length; j++)] *)
Definition innerLoop (actionBlocks : ActionBlocks) (i : nat)
  (st : list Sprite.t * list Effect) : list Sprite.t * list Effect :=
  let n := List.length (fst st) in
  fold_left (fun acc j => resolvePair actionBlocks i j acc)
    (seq (S i) (n - S i)) st.

(** [for (let i = 0; i < sprites.length; i++)] *)
Definition handleCollisions (actionBlocks : ActionBlocks)
  (sprites : list Sprite.t) : list Sprite.t * list Effect :=
  fold_left (fun acc i => innerLoop actionBlocks i acc)
    (seq 0 (List.length sprites)) (sprites, []).

(** ** Continuous Motion Stepper *)

Record Element := { clientWidth : JS.number; clientHeight : JS.number }.

(** [stageRef.current?.clientWidth ?? 600] *)
Definition stageWidthOf (stageRef : option Element) : JS.number :=
  match stageRef with Some el => clientWidth el | None => 600%float end.

(** [stageRef.current?.clientHeight ?? 600] *)
Definition stageHeightOf (stageRef : option Element) : JS.number :=
  match stageRef with Some el => clientHeight el | None => 600%float end.

(** The callback of [prevSprites.map] inside [animate]. *)
Definition stepSprite (stageRef : option Element) (deltaTime : JS.number)
  (sprite : Sprite.t) : Sprite.t :=
  if negb (Sprite.isAnimating sprite) then sprite
  else
    let newX := (Sprite.x sprite + Sprite.velocityX sprite * deltaTime)%float in
    let newY := (Sprite.y sprite + Sprite.velocityY sprite * deltaTime)%float in
    let stageWidth := stageWidthOf stageRef in
    let stageHeight := stageHeightOf stageRef in
    (* Bounce off walls *)
    let newVelocityX :=
      if (newX <=? 0)%float || (stageWidth <=? newX)%float
      then (- Sprite.velocityX sprite)%float else Sprite.velocityX sprite in
    let newVelocityY :=
      if (newY <=? 0)%float || (stageHeight <=? newY)%float
      then (- Sprite.velocityY sprite)%float else Sprite.velocityY sprite in
    Sprite.mk (Sprite.id sprite) (Sprite.type sprite)
      (JS.max 0 (JS.min newX stageWidth))
      (JS.max 0 (JS.min newY stageHeight))
      (Sprite.direction sprite) (Sprite.saying sprite)
      (Sprite.thinking sprite) (Sprite.animation sprite) (Sprite.size sprite)
      newVelocityX newVelocityY (Sprite.isAnimating sprite).

(** The updater passed to [setSprites] by [animate]: one stepper tick, i.e.
    the motion update followed by the collision pass on its output. *)
Definition animateTick (actionBlocks : ActionBlocks)
  (stageRef : option Element) (deltaTime : JS.number)
  (prevSprites : list Sprite.t) : list Sprite.t * list Effect :=
  let updatedSprites := map (stepSprite stageRef deltaTime) prevSprites in
  handleCollisions actionBlocks updatedSprites.

(** ** Action Sequencer *)

(** What the engine takes from its host: [Math.cos] and [Math.sin] (whose
    results the language leaves to the implementation) and the successive
    results of [Math.random()]. *)
Record Runtime := {
  Math_cos : JS.number -> JS.number;
  Math_sin : JS.number -> JS.number;
  Math_random : nat -> JS.number
}.

Definition Math_PI : JS.number := 0x1.921fb54442d18p+1%float.

(** The object built for the sprite an action timer targets: the [switch]
    over [action.type] and the spread that follows it.  [draws] counts the
    calls to [Math.random()] made so far. *)
Definition applyAction (rt : Runtime) (action : ActionBlock.t)
  (draws : nat) (sprite : Sprite.t) : Sprite.t * nat :=
  let newX := Sprite.x sprite in
  let newY := Sprite.y sprite in
  let newSize := Sprite.size sprite in
  let newDirection := Sprite.direction sprite in
  let newSaying := Sprite.saying sprite in
  let newVelocityX := Sprite.velocityX sprite in
  let newVelocityY := Sprite.velocityY sprite in
  let build x y sz dir sayingText vx vy :=
    Sprite.mk (Sprite.id sprite) (Sprite.type sprite) x y dir sayingText
      (Sprite.thinking sprite) (Sprite.animation sprite) sz vx vy true in
  match ActionBlock.type action with
  | moveX =>
      (build newX newY newSize newDirection newSaying
         (ActionBlock.value action) newVelocityY, draws)
  | moveY =>
      (build newX newY newSize newDirection newSaying
         newVelocityX (ActionBlock.value action), draws)
  | move =>
      let radians := ((Sprite.direction sprite - 90) * Math_PI / 180)%float in
      (build newX newY newSize newDirection newSaying
         (Math_cos rt radians * ActionBlock.value action)%float
         (Math_sin rt radians * ActionBlock.value action)%float, draws)
  | turn =>
      (build newX newY newSize
         (JS.rem (Sprite.direction sprite + ActionBlock.value action) 360)
         newSaying newVelocityX newVelocityY, draws)
  | size =>
      (build newX newY
         (JS.max 0.1 (Sprite.size sprite + ActionBlock.value action))
         newDirection newSaying newVelocityX newVelocityY, draws)
  | say =>
      (build newX newY newSize newDirection "Hello!"
         newVelocityX newVelocityY, draws)
  | random =>
      (build (Math_random rt draws * 400 + 100)%float
         (Math_random rt (S draws) * 400 + 100)%float
         newSize newDirection newSaying newVelocityX newVelocityY,
       S (S draws))
  | goto | think =>
      (build newX newY newSize newDirection newSaying
         newVelocityX newVelocityY, draws)
  end.

(** [prev.map(sprite => sprite.id === spriteId ? {...} : sprite)] of an
    action timer. *)
Fixpoint runAction (rt : Runtime) (spriteId : string)
  (action : ActionBlock.t) (draws : nat) (prev : list Sprite.t)
  : list Sprite.t * nat :=
  match prev with
  | [] => ([], draws)
  | sprite :: rest =>
      if String.eqb (Sprite.id sprite) spriteId then
        let '(sprite', draws') := applyAction rt action draws sprite in
        let '(rest', draws'') := runAction rt spriteId action draws' rest in
        (sprite' :: rest', draws'')
      else
        let '(rest', draws') := runAction rt spriteId action draws rest in
        (sprite :: rest', draws')
  end.

(** The timer that ends a sequence:
    [{ ...sprite, isAnimating: false, velocityX: 0, velocityY: 0 }]. *)
Definition stopSprite (spriteId : string) (prev : list Sprite.t)
  : list Sprite.t :=
  map (fun sprite =>
         if String.eqb (Sprite.id sprite) spriteId then
           Sprite.mk (Sprite.id sprite) (Sprite.type sprite) (Sprite.x sprite)
             (Sprite.y sprite) (Sprite.direction sprite)
             (Sprite.saying sprite) (Sprite.thinking sprite)
             (Sprite.animation sprite) (Sprite.size sprite) 0 0 false
         else sprite) prev.

(** The collision resolver's clear timer: [{ ...sprite, saying: '' }]. *)
Definition clearSaying (id1 id2 : string) (prev : list Sprite.t)
  : list Sprite.t :=
  map (fun sprite =>
         if String.eqb (Sprite.id sprite) id1
            || String.eqb (Sprite.id sprite) id2 then
           Sprite.mk (Sprite.id sprite) (Sprite.type sprite) (Sprite.x sprite)
             (Sprite.y sprite) (Sprite.direction sprite) ""
             (Sprite.thinking sprite) (Sprite.animation sprite)
             (Sprite.size sprite) (Sprite.velocityX sprite)
             (Sprite.velocityY sprite) (Sprite.isAnimating sprite)
         else sprite) prev.

(** ** The application state and its event loop *)

(** A pending [setTimeout]: the time (in ms) at which it is due, and its
    callback. *)
Definition Timer := (Z * Callback)%type.

Record World := {
  sprites : list Sprite.t;
  selectedSprite : option string;
  isPlaying : bool;
  actionBlocks : ActionBlocks;
  (** whether a [requestAnimationFrame] callback is outstanding *)
  frameRequested : bool;
  (** [lastTime] of the running frame loop *)
  lastTime : Z;
  (** outstanding timers, soonest first; equal times in call order *)
  timers : list Timer;
  (** the clock, in ms *)
  now : Z;
  draws : nat;
  stageRef : option Element
}.

Definition initialWorld (stage : option Element) : World :=
  {| sprites := []; selectedSprite := None; isPlaying := false;
     actionBlocks := []; frameRequested := false; lastTime := 0;
     timers := []; now := 0; draws := 0; stageRef := stage |}.

(** A timer goes behind every timer that is due no later than it. *)
Fixpoint enqueue (t : Timer) (queue : list Timer) : list Timer :=
  match queue with
  | [] => [t]
  | t0 :: rest =>
      if (fst t0 <=? fst t)%Z then t0 :: enqueue t rest else t :: t0 :: rest
  end.

Definition setTimeout (cb : Callback) (delay : Z) (w : World) : World :=
  {| sprites := sprites w; selectedSprite := selectedSprite w;
     isPlaying := isPlaying w; actionBlocks := actionBlocks w;
     frameRequested := frameRequested w; lastTime := lastTime w;
     timers := enqueue (now w + delay, cb)%Z (timers w);
     now := now w; draws := draws w; stageRef := stageRef w |}.

(** [actions.forEach((action, index) => setTimeout(..., index * 1000))] *)
Fixpoint scheduleActions (spriteId : string) (actions : list ActionBlock.t)
  (index : nat) (w : World) : World :=
  match actions with
  | [] => w
  | action :: rest =>
      scheduleActions spriteId rest (S index)
        (setTimeout (RunAction spriteId action
                       (match rest with [] => true | _ => false end))
           (Z.of_nat index * 1000) w)
  end.

(** [Object.entries(actionBlocks).forEach(...)] *)
Definition scheduleAll (w : World) : World :=
  fold_left (fun acc entry => scheduleActions (fst entry) (snd entry) 0 acc)
    (actionBlocks w) w.

Definition setFrame (requested : bool) (last : Z) (w : World) : World :=
  {| sprites := sprites w; selectedSprite := selectedSprite w;
     isPlaying := isPlaying w; actionBlocks := actionBlocks w;
     frameRequested := requested; lastTime := last;
     timers := timers w; now := now w; draws := draws w;
     stageRef := stageRef w |}.

(** The two effects on [[isPlaying, actionBlocks]], run after either
    changed: the frame loop's cleanup cancels the outstanding frame, the
    frame loop restarts when playing, and the sequencer schedules every
    queued action when playing.  Nothing here touches the timers that are
    already pending. *)
Definition runEffects (w : World) : World :=
  let w := setFrame false (lastTime w) w in
  if isPlaying w then scheduleAll (setFrame true (now w) w) else w.

(** ** Playback Controller *)

(** [onClick={() => setIsPlaying(!isPlaying)}] *)
Definition togglePlay (w : World) : World :=
  runEffects
    {| sprites := sprites w; selectedSprite := selectedSprite w;
       isPlaying := negb (isPlaying w); actionBlocks := actionBlocks w;
       frameRequested := frameRequested w; lastTime := lastTime w;
       timers := timers w; now := now w; draws := draws w;
       stageRef := stageRef w |}.

Definition deleteSprite (id : string) (w : World) : World :=
  {| sprites :=
       filter (fun sprite => negb (String.eqb (Sprite.id sprite) id))
         (sprites w);
     selectedSprite :=
       match selectedSprite w with
       | Some sel => if String.eqb sel id then None else Some sel
       | None => None
       end;
     isPlaying := isPlaying w; actionBlocks := actionBlocks w;
     frameRequested := frameRequested w; lastTime := lastTime w;
     timers := timers w; now := now w; draws := draws w;
     stageRef := stageRef w |}.

Definition resetAll (w : World) : World :=
  runEffects
    {| sprites := []; selectedSprite := None; isPlaying := false;
       actionBlocks := [];
       frameRequested := false; lastTime := lastTime w;
       timers := timers w; now := now w; draws := draws w;
       stageRef := stageRef w |}.

(** ** Running deferred work *)

Definition setSprites (f : list Sprite.t -> list Sprite.t) (w : World)
  : World :=
  {| sprites := f (sprites w); selectedSprite := selectedSprite w;
     isPlaying := isPlaying w; actionBlocks := actionBlocks w;
     frameRequested := frameRequested w; lastTime := lastTime w;
     timers := timers w; now := now w; draws := draws w;
     stageRef := stageRef w |}.

(** Running one timer callback. *)
Definition fire (rt : Runtime) (cb : Callback) (w : World) : World :=
  match cb with
  | RunAction spriteId action last =>
      let '(sprites', draws') :=
        runAction rt spriteId action (draws w) (sprites w) in
      let w' :=
        {| sprites := sprites'; selectedSprite := selectedSprite w;
           isPlaying := isPlaying w; actionBlocks := actionBlocks w;
           frameRequested := frameRequested w; lastTime := lastTime w;
           timers := timers w; now := now w; draws := draws';
           stageRef := stageRef w |} in
      (* Stop animation after the last action *)
      if last then setTimeout (StopSprite spriteId) 1000 w' else w'
  | StopSprite spriteId => setSprites (stopSprite spriteId) w
  | ClearSaying id1 id2 => setSprites (clearSaying id1 id2) w
  end.

Definition setClock (t : Z) (pending : list Timer) (w : World) : World :=
  {| sprites := sprites w; selectedSprite := selectedSprite w;
     isPlaying := isPlaying w; actionBlocks := actionBlocks w;
     frameRequested := frameRequested w; lastTime := lastTime w;
     timers := pending; now := t; draws := draws w;
     stageRef := stageRef w |}.

(** Let the clock reach [t], running on the way every timer that is due by
    then, each at the time it is due. *)
Fixpoint elapse (rt : Runtime) (fuel : nat) (t : Z) (w : World) : World :=
  match fuel with
  | O => w
  | S fuel' =>
      match timers w with
      | (due, cb) :: rest =>
          if (due <=? t)%Z
          then elapse rt fuel' t
                 (fire rt cb (setClock (Z.max (now w) due) rest w))
          else setClock (Z.max (now w) t) (timers w) w
      | [] => setClock (Z.max (now w) t) [] w
      end
  end.

(** A timer can start at most one further timer, so twice the number of the
    pending ones (and one step to set the clock) is always enough. *)
Definition advanceTo (rt : Runtime) (t : Z) (w : World) : World :=
  elapse rt (S (2 * List.length (timers w))) t w.

(** ** The frame loop *)

Definition applyEffect (w : World) (e : Effect) : World :=
  match e with
  | SetTimeout cb delay => setTimeout cb delay w
  | SetActionBlocks props =>
      {| sprites := sprites w; selectedSprite := selectedSprite w;
         isPlaying := isPlaying w;
         actionBlocks := spreadBlocks (actionBlocks w) props;
         frameRequested := frameRequested w; lastTime := lastTime w;
         timers := timers w; now := now w; draws := draws w;
         stageRef := stageRef w |}
  end.

(** The queue store once the [setActionBlocks] updaters among [effects]
    have run on it, in order. *)
Definition storeAfter (effects : list Effect) (blocks : ActionBlocks)
  : ActionBlocks :=
  fold_left (fun acc e =>
               match e with
               | SetActionBlocks props => spreadBlocks acc props
               | SetTimeout _ _ => acc
               end) effects blocks.

Definition changesBlocks (e : Effect) : bool :=
  match e with SetActionBlocks _ => true | SetTimeout _ _ => false end.

(** [(currentTime - lastTime) / 1000], on a clock of whole milliseconds. *)
Definition elapsedSeconds (currentTime last : Z) : JS.number :=
  (SF2Prim (binary_normalize prec emax (currentTime - last) 0 false)
   / 1000)%float.

(** One run of [animate], when a frame is outstanding: the tick, its side
    effects, the next frame request, and the re-run of the effects when the
    collision pass replaced [actionBlocks]. *)
Definition frame (w : World) : World :=
  if frameRequested w then
    let deltaTime := elapsedSeconds (now w) (lastTime w) in
    let '(sprites', effects) :=
      animateTick (actionBlocks w) (stageRef w) deltaTime (sprites w) in
    let w1 := setFrame true (now w) (setSprites (fun _ => sprites') w) in
    let w2 := fold_left applyEffect effects w1 in
    if existsb changesBlocks effects then
      (* the restarted loop keeps no [lastTime] of the old one *)
      runEffects w2
    else w2
  else w.

(** ** Authoring: sprites, drags and action blocks *)

(** The digits of [Date.now()] in a template literal. *)
Definition decimal (n : N) : string :=
  NilEmpty.string_of_uint (N.to_uint n).

(** [`sprite-${Date.now()}`] and [`action-${Date.now()}`] *)
Definition spriteIdAt (dateNow : N) : string := "sprite-" ++ decimal dateNow.
Definition actionIdAt (dateNow : N) : string := "action-" ++ decimal dateNow.

Definition addSprite (rt : Runtime) (dateNow : N) (type : SpriteType)
  (w : World) : World :=
  let newSprite :=
    Sprite.mk (spriteIdAt dateNow) type
      (Math_random rt (draws w) * 400 + 100)%float
      (Math_random rt (S (draws w)) * 400 + 100)%float
      0 "" "" [] 1 0 0 false in
  {| sprites := sprites w ++ [newSprite];
     selectedSprite := Some (Sprite.id newSprite);
     isPlaying := isPlaying w; actionBlocks := actionBlocks w;
     frameRequested := frameRequested w; lastTime := lastTime w;
     timers := timers w; now := now w; draws := S (S (draws w));
     stageRef := stageRef w |}.

Definition setActionBlocks (f : ActionBlocks -> ActionBlocks) (w : World)
  : World :=
  runEffects
    {| sprites := sprites w; selectedSprite := selectedSprite w;
       isPlaying := isPlaying w; actionBlocks := f (actionBlocks w);
       frameRequested := frameRequested w; lastTime := lastTime w;
       timers := timers w; now := now w; draws := draws w;
       stageRef := stageRef w |}.

(** [handleActionDrop].  [actionData] is the outcome of [JSON.parse] on the
    dragged payload: [None] when it throws, which the handler catches and
    logs; otherwise the block the palette put there (whose own id, if any,
    is not read). *)
Definition handleActionDrop (dateNow : N) (actionData : option ActionBlock.t)
  (spriteId : string) (w : World) : World :=
  match actionData with
  | Some data =>
      let newAction :=
        ActionBlock.mk (actionIdAt dateNow) (ActionBlock.type data)
          (ActionBlock.value data) (ActionBlock.duration data)
          (ActionBlock.x data) (ActionBlock.y data)
          (ActionBlock.repeat data) (ActionBlock.label data) in
      setActionBlocks
        (fun prev =>
           spreadBlocks prev
             [(spriteId, blocksOrEmpty prev spriteId ++ [newAction])]) w
  | None => w
  end.

(** [removeAction].  [prev[spriteId].filter] throws a TypeError when the
    sprite has no queue: [None]. *)
Definition removeAction (spriteId actionId : string) (w : World)
  : option World :=
  match lookupBlocks (actionBlocks w) spriteId with
  | Some queue =>
      Some
        (setActionBlocks
           (fun prev =>
              spreadBlocks prev
                [(spriteId,
                  filter
                    (fun action =>
                       negb (String.eqb (ActionBlock.id action) actionId))
                    queue)]) w)
  | None => None
  end.

(** The application state with the drag flag. *)
Record Editor := { world : World; isDragging : bool }.

Definition setSelectedSprite (sel : option string) (w : World) : World :=
  {| sprites := sprites w; selectedSprite := sel;
     isPlaying := isPlaying w; actionBlocks := actionBlocks w;
     frameRequested := frameRequested w; lastTime := lastTime w;
     timers := timers w; now := now w; draws := draws w;
     stageRef := stageRef w |}.

Definition handleDragStart (spriteId : string) (ed : Editor) : Editor :=
  if isPlaying (world ed) then ed
  else {| world := setSelectedSprite (Some spriteId) (world ed);
          isDragging := true |}.

Definition handleDragEnd (ed : Editor) : Editor :=
  {| world := world ed; isDragging := false |}.

(** [handleDrop]: [spriteId] is what the drag carries as text,
    [(clientX, clientY)] the pointer and [(left, top)] the corner of the
    stage's bounding rectangle. *)
Definition handleDrop (spriteId : string) (clientX clientY : JS.number)
  (left top : JS.number) (ed : Editor) : Editor :=
  let w := world ed in
  {| world :=
       match stageRef w with
       | Some _ =>
           let x := (clientX - left)%float in
           let y := (clientY - top)%float in
           setSprites
             (map (fun sprite =>
                     if String.eqb (Sprite.id sprite) spriteId then
                       Sprite.mk (Sprite.id sprite) (Sprite.type sprite) x y
                         (Sprite.direction sprite) (Sprite.saying sprite)
                         (Sprite.thinking sprite) (Sprite.animation sprite)
                         (Sprite.size sprite) (Sprite.velocityX sprite)
                         (Sprite.velocityY sprite) (Sprite.isAnimating sprite)
                     else sprite)) w
       | None => w
       end;
     isDragging := false |}.

(** ** Scenarios *)

Module Scenario.

(** A host whose trigonometry and random source are never consulted by the
    scenarios below. *)
Definition host : Runtime :=
  {| Math_cos := fun _ => 0%float;
     Math_sin := fun _ => 0%float;
     Math_random := fun _ => 0%float |}.

Definition block (name : string) (kind : AnimationType) (v : JS.number)
  : ActionBlock.t :=
  ActionBlock.mk name kind v None None None None "".

Definition sprite (name : string) (x y vx vy : JS.number) (animating : bool)
  : Sprite.t :=
  Sprite.mk name cat x y 0 "" "" [] 1 vx vy animating.

Definition a1 := block "a1" moveX 100.
Definition b1 := block "b1" moveY 50.

(** A sprite facing up whose program is [rotate 90, rotate 90], at clock
    [t], before Play is pressed; [vx] and [vy] are whatever velocity it was
    left with. *)
Definition rotateTwice (t : Z) (vx vy : JS.number) : World :=
  {| sprites := [sprite "sprite-1" 300 300 vx vy false];
     selectedSprite := Some "sprite-1"; isPlaying := false;
     actionBlocks :=
       [("sprite-1", [block "r1" turn 90; block "r2" turn 90])];
     frameRequested := false; lastTime := 0; timers := []; now := t;
     draws := 0; stageRef := None |}.

(** Two sprites of unit scale heading for each other, [A] at [(ax, ay)]
    and [B] at [(bx, by)]. *)
Definition pairAt (ax ay bx by_ : JS.number) : list Sprite.t :=
  [sprite "A" ax ay 50 0 true; sprite "B" bx by_ (-50) 0 true].

Definition pairStore : ActionBlocks := [("A", [a1]); ("B", [b1])].

(** Whether the two sprites of a pair pass the overlap test. *)
Definition overlapping (pair : list Sprite.t) : bool :=
  match pair with
  | [A; B] => checkCollision A B
  | _ => false
  end.

(** One sprite, selected, with a one-block program. *)
Definition oneSprite : World :=
  {| sprites := [sprite "sprite-1" 300 300 0 0 false];
     selectedSprite := Some "sprite-1"; isPlaying := false;
     actionBlocks := [("sprite-1", [a1])];
     frameRequested := false; lastTime := 0; timers := []; now := 0;
     draws := 0; stageRef := None |}.

(** Two overlapping sprites at rest; the first has the program
    [rotate 90, rotate 90]. *)
Definition clash : World :=
  {| sprites := [sprite "A" 100 100 0 0 false; sprite "B" 130 100 0 0 false];
     selectedSprite := None; isPlaying := false;
     actionBlocks := [("A", [block "r1" turn 90; block "r2" turn 90])];
     frameRequested := false; lastTime := 0; timers := []; now := 0;
     draws := 0; stageRef := None |}.

(** Eleven times "decrease size by 0.1". *)
Definition shrinkEleven : list ActionBlock.t :=
  repeat (block "shrink" size (-0.1)) 11.

End Scenario.

(** ** What the properties below observe *)

(** The part of a sprite the collision resolver has no business with:
    everything but position, velocity and saying. *)
Definition untouched (s : Sprite.t)
  : string * SpriteType * JS.number * JS.number * bool
    * string * list Animation.t :=
  (Sprite.id s, Sprite.type s, Sprite.direction s, Sprite.size s,
   Sprite.isAnimating s, Sprite.thinking s, Sprite.animation s).

(** Centre-to-centre distance and minimum separation of two sprites, as
    [handleCollisions] computes them. *)
Definition centreDistance (s1 s2 : Sprite.t) : JS.number :=
  let dx := (Sprite.x s2 - Sprite.x s1)%float in
  let dy := (Sprite.y s2 - Sprite.y s1)%float in
  sqrt (dx * dx + dy * dy)%float.

Definition minSeparation (s1 s2 : Sprite.t) : JS.number :=
  ((48 * Sprite.size s1 + 48 * Sprite.size s2) / 2)%float.

Definition velocity (s : Sprite.t) : JS.number * JS.number :=
  (Sprite.velocityX s, Sprite.velocityY s).

Definition position (s : Sprite.t) : JS.number * JS.number :=
  (Sprite.x s, Sprite.y s).


(** Whether a position lies in the stage rectangle. *)
Definition inStage (stageRef : option Element) (s : Sprite.t) : bool :=
  (0 <=? Sprite.x s)%float && (Sprite.x s <=? stageWidthOf stageRef)%float
  && (0 <=? Sprite.y s)%float && (Sprite.y s <=? stageHeightOf stageRef)%float.

(** The authoring side only queues blocks whose magnitude went through
    JSON, hence a finite number. *)
Definition wellFormed (action : ActionBlock.t) : Prop :=
  is_finite (ActionBlock.value action) = true.

(** What a sprite shows of the sequencer's work. *)
Definition pose (s : Sprite.t) : JS.number * bool * (JS.number * JS.number) :=
  (Sprite.direction s, Sprite.isAnimating s, velocity s).

(** A pending timer, by due time, callback kind and target. *)
Definition timerKind (t : Timer) : Z * string * string :=
  match snd t with
  | RunAction spriteId action _ => (fst t, "action", spriteId)
  | StopSprite spriteId => (fst t, "stop", spriteId)
  | ClearSaying id1 _ => (fst t, "clear", id1)
  end.

(** No two sprites of the list overlap. *)
Definition overlapFree (l : list Sprite.t) : Prop :=
  forall i j si sj,
    (i < j)%nat -> nth_error l i = Some si -> nth_error l j = Some sj ->
    checkCollision si sj = false.

(** Position and velocity are finite numbers. *)
Definition finiteMotion (s : Sprite.t) : Prop :=
  is_finite (Sprite.x s) = true /\ is_finite (Sprite.y s) = true
  /\ is_finite (Sprite.velocityX s) = true
  /\ is_finite (Sprite.velocityY s) = true.

(** The sprite at index [k] has a NaN x-coordinate. *)
Definition lostAt (k : nat) (l : list Sprite.t) : Prop :=
  exists s, nth_error l k = Some s /\ is_nan (Sprite.x s) = true.

(** Everything in the world but the timers and the frame loop. *)
Definition besidesTimers (w : World)
  : list Sprite.t * option string * bool * ActionBlocks * Z * nat
    * option Element :=
  (sprites w, selectedSprite w, isPlaying w, actionBlocks w, now w, draws w,
   stageRef w).

(** The number of blocks in the store, over all sprites. *)
Definition queuedActions (blocks : ActionBlocks) : nat :=
  list_sum (map (fun entry => List.length (snd entry)) blocks).

(** What no timer callback and no drop on the stage may change. *)
Definition identity (s : Sprite.t)
  : string * SpriteType * string * list Animation.t :=
  (Sprite.id s, Sprite.type s, Sprite.thinking s, Sprite.animation s).

(** The timer queue is kept by due time. *)
Definition byDueTime (queue : list Timer) : Prop :=
  StronglySorted (fun a b => (fst a <= fst b)%Z) queue.

(** How many callbacks a pending timer can still cause to run: itself, and
    the stop timer that a last action starts. *)
Definition pendingRuns (t : Timer) : nat :=
  match snd t with
  | RunAction _ _ true => 2
  | _ => 1
  end.

Definition workload (queue : list Timer) : nat :=
  list_sum (map pendingRuns queue).

(** The sequencer's contract in the spec's words: the action at ordinal
    index [i] is due [i] seconds after the trigger [start], and the last
    one is marked as such. *)
Fixpoint actionTimers (spriteId : string) (actions : list ActionBlock.t)
  (index : nat) (start : Z) : list Timer :=
  match actions with
  | [] => []
  | action :: rest =>
      ((start + Z.of_nat index * 1000)%Z,
       RunAction spriteId action (match rest with [] => true | _ => false end))
      :: actionTimers spriteId rest (S index) start
  end.

(** Running a program on one sprite, one action after the other. *)
Definition applyActions (rt : Runtime) (actions : list ActionBlock.t)
  (sprite : Sprite.t) : Sprite.t :=
  fst (fold_left (fun acc action => applyAction rt action (snd acc) (fst acc))
         actions (sprite, 0%nat)).

(** * Facts about binary64 comparisons *)

Module FloatFacts.

Lemma SFcompare_antisym (x y : spec_float) :
  SFcompare y x = option_map CompOpp (SFcompare x y).
Proof.
  destruct x as [sx | sx | | sx mx ex], y as [sy | sy | | sy my ey];
    cbn; try reflexivity;
    try (destruct sx; reflexivity); try (destruct sy; reflexivity);
    try (destruct sx, sy; reflexivity).
  destruct sx, sy; cbn; try reflexivity;
    rewrite (Z.compare_antisym ex ey);
    destruct (ex ?= ey)%Z; cbn; try reflexivity;
    change (Pos.compare_cont Eq my mx) with (my ?= mx)%positive;
    change (Pos.compare_cont Eq mx my) with (mx ?= my)%positive;
    rewrite (Pos.compare_antisym my mx);
    now destruct (my ?= mx)%positive.
Qed.

Lemma SFcompare_refl (x : spec_float) :
  x <> S754_nan -> SFcompare x x = Some Eq.
Proof.
  destruct x as [s | s | | s m e]; cbn; intros H;
    try congruence; try (destruct s; reflexivity).
  destruct s; rewrite Z.compare_refl;
    change (Pos.compare_cont Eq m m) with (m ?= m)%positive;
    now rewrite Pos.compare_refl.
Qed.

Lemma SFcompare_nan_l (x y : spec_float) :
  SFcompare x y <> None -> x <> S754_nan.
Proof. intros H ->. now apply H. Qed.

Lemma SFcompare_nan_r (x y : spec_float) :
  SFcompare x y <> None -> y <> S754_nan.
Proof. intros H ->. apply H. now destruct x. Qed.

Lemma SFcompare_some (x y : spec_float) :
  x <> S754_nan -> y <> S754_nan -> exists c, SFcompare x y = Some c.
Proof.
  destruct x, y; cbn; intros Hx Hy; try congruence; eauto.
Qed.

Lemma ltb_cmp (a b : float) :
  (a <? b)%float = match JS.cmp a b with Some Lt => true | _ => false end.
Proof. now rewrite ltb_spec. Qed.

Lemma leb_cmp (a b : float) :
  (a <=? b)%float =
  match JS.cmp a b with Some (Lt | Eq) => true | _ => false end.
Proof. now rewrite leb_spec. Qed.

Lemma cmp_antisym (a b : float) :
  JS.cmp b a = option_map CompOpp (JS.cmp a b).
Proof. apply SFcompare_antisym. Qed.

Lemma is_nan_spec (a : float) :
  is_nan a = false <-> Prim2SF a <> S754_nan.
Proof.
  unfold is_nan. rewrite eqb_spec. unfold SFeqb. split.
  - intros H E. rewrite E in H. discriminate.
  - intros H. now rewrite (SFcompare_refl _ H).
Qed.

Lemma cmp_total (a b : float) :
  is_nan a = false -> is_nan b = false -> exists c, JS.cmp a b = Some c.
Proof.
  rewrite !is_nan_spec. apply SFcompare_some.
Qed.

Lemma lt_le (a b : float) : (a <? b)%float = true -> (a <=? b)%float = true.
Proof.
  rewrite ltb_cmp, leb_cmp. now destruct (JS.cmp a b) as [[]|].
Qed.

Lemma le_not_gt (a b : float) :
  (a <=? b)%float = true -> (b <? a)%float = false.
Proof.
  rewrite ltb_cmp, leb_cmp, (cmp_antisym a b).
  now destruct (JS.cmp a b) as [[]|].
Qed.

Lemma not_gt_le (a b : float) :
  is_nan a = false -> is_nan b = false ->
  (b <? a)%float = false -> (a <=? b)%float = true.
Proof.
  intros Ha Hb. destruct (cmp_total a b Ha Hb) as [c Hc].
  rewrite ltb_cmp, leb_cmp, (cmp_antisym a b), Hc. now destruct c.
Qed.

Lemma le_not_nan (a b : float) :
  (a <=? b)%float = true -> is_nan a = false /\ is_nan b = false.
Proof.
  rewrite leb_cmp, !is_nan_spec. unfold JS.cmp. intros H.
  split; [apply (SFcompare_nan_l _ (Prim2SF b))
         | apply (SFcompare_nan_r (Prim2SF a))];
    intros E; rewrite E in H; discriminate.
Qed.

Lemma le_refl (a : float) : is_nan a = false -> (a <=? a)%float = true.
Proof.
  rewrite is_nan_spec, leb_cmp. unfold JS.cmp. intros H.
  now rewrite (SFcompare_refl _ H).
Qed.

(** [Math.max] and [Math.min] return one of their arguments, the right
    one. *)
Lemma max_cases (a b : float) :
  is_nan a = false -> is_nan b = false ->
  (JS.max a b = a /\ (b <=? a)%float = true)
  \/ (JS.max a b = b /\ (a <=? b)%float = true).
Proof.
  intros Ha Hb. unfold JS.max. rewrite Ha, Hb. cbn [orb].
  destruct (b <? a)%float eqn:Hba.
  - left. split; [reflexivity | now apply lt_le].
  - destruct (a <? b)%float eqn:Hab.
    + right. split; [reflexivity | now apply lt_le].
    + destruct (classify a);
        (left; split; [reflexivity | now apply not_gt_le])
        || (right; split; [reflexivity | now apply not_gt_le]).
Qed.

Lemma min_cases (a b : float) :
  is_nan a = false -> is_nan b = false ->
  (JS.min a b = a /\ (a <=? b)%float = true)
  \/ (JS.min a b = b /\ (b <=? a)%float = true).
Proof.
  intros Ha Hb. unfold JS.min. rewrite Ha, Hb. cbn [orb].
  destruct (a <? b)%float eqn:Hab.
  - left. split; [reflexivity | now apply lt_le].
  - destruct (b <? a)%float eqn:Hba.
    + right. split; [reflexivity | now apply lt_le].
    + destruct (classify b);
        (left; split; [reflexivity | now apply not_gt_le])
        || (right; split; [reflexivity | now apply not_gt_le]).
Qed.

(** The clamp of the stepper lands in the stage. *)
Lemma clamp_bounds (v limit : float) :
  (0 <=? limit)%float = true -> is_nan v = false ->
  (0 <=? JS.max 0 (JS.min v limit))%float = true
  /\ (JS.max 0 (JS.min v limit) <=? limit)%float = true.
Proof.
  intros Hl Hv. destruct (le_not_nan _ _ Hl) as [H0 Hln].
  assert (Hm : is_nan (JS.min v limit) = false
               /\ (JS.min v limit <=? limit)%float = true).
  { destruct (min_cases v limit Hv Hln) as [[-> H] | [-> H]].
    - now split.
    - split; [assumption | now apply le_refl]. }
  destruct Hm as [Hmn Hml].
  destruct (max_cases 0 (JS.min v limit) H0 Hmn) as [[-> H] | [-> H]].
  - split; [now apply le_refl | assumption].
  - now split.
Qed.

(** Rounding never produces NaN: the mantissa stays non-negative through
    the shifts. *)
Lemma iter_pos_invariant {A : Type} (P : A -> Prop) (f : A -> A) :
  (forall x, P x -> P (f x)) ->
  forall (p : positive) (x : A), P x -> P (iter_pos f p x).
Proof.
  intros Hf. induction p as [p IH | p IH |]; intros x Hx; cbn.
  - apply IH, IH, Hf, Hx.
  - apply IH, IH, Hx.
  - apply Hf, Hx.
Qed.

Lemma shr_1_nonneg (mrs : shr_record) :
  (0 <= shr_m mrs)%Z -> (0 <= shr_m (shr_1 mrs))%Z.
Proof.
  destruct mrs as [m r s]. destruct m as [|[p|p|]|[p|p|]]; cbn; lia.
Qed.

Lemma shr_fexp_nonneg (m e : Z) (l : location) :
  (0 <= m)%Z -> (0 <= shr_m (fst (shr_fexp prec emax m e l)))%Z.
Proof.
  intros Hm. unfold shr_fexp, shr.
  assert (H0 : (0 <= shr_m (shr_record_of_loc m l))%Z)
    by (destruct l as [|[]]; exact Hm).
  destruct (fexp prec emax (Zdigits2 m + e) - e)%Z; cbn [fst]; try exact H0.
  apply (iter_pos_invariant (fun r => (0 <= shr_m r)%Z));
    [exact shr_1_nonneg | exact H0].
Qed.

Lemma round_nearest_even_nonneg (m : Z) (l : location) :
  (0 <= m)%Z -> (0 <= round_nearest_even m l)%Z.
Proof.
  intros Hm. destruct l as [|[]]; cbn; try lia.
  destruct (Z.even m); lia.
Qed.

Lemma binary_round_aux_not_nan (sx : bool) (mx ex : Z) (lx : location) :
  (0 <= mx)%Z -> binary_round_aux prec emax sx mx ex lx <> S754_nan.
Proof.
  intros Hm. unfold binary_round_aux.
  pose proof (shr_fexp_nonneg mx ex lx Hm) as H1.
  destruct (shr_fexp prec emax mx ex lx) as [mrs' e']. cbn [fst] in H1.
  pose proof (shr_fexp_nonneg _ e' loc_Exact
                (round_nearest_even_nonneg _ (loc_of_shr_record mrs') H1))
    as H2.
  destruct (shr_fexp prec emax _ e' loc_Exact) as [mrs'' e''].
  cbn [fst] in H2.
  destruct (shr_m mrs'') as [|m|m]; try lia; try discriminate.
  destruct (e'' <=? emax - prec)%Z; discriminate.
Qed.

Lemma binary_normalize_not_nan (m e : Z) (szero : bool) :
  binary_normalize prec emax m e szero <> S754_nan.
Proof.
  destruct m as [|m|m]; cbn; try discriminate; unfold binary_round;
    destruct (shl_align _ _ _) as [mz ez];
    apply binary_round_aux_not_nan; lia.
Qed.

Lemma SFadd_not_nan (x y : spec_float) :
  x <> S754_nan -> JS.finite y -> SF64add x y <> S754_nan.
Proof.
  unfold SF64add.
  destruct x as [sx | sx | | sx mx ex], y as [sy | sy | | sy my ey];
    cbn; intros Hx Hy; try contradiction; try congruence;
    try (destruct sx, sy; discriminate).
  apply binary_normalize_not_nan.
Qed.

Lemma is_finite_spec (v : float) :
  is_finite v = true -> JS.finite (Prim2SF v).
Proof.
  unfold is_finite, is_infinity. intros H.
  apply negb_true_iff, orb_false_iff in H. destruct H as [Hn Hi].
  apply is_nan_spec in Hn. rewrite eqb_spec, abs_spec in Hi.
  destruct (Prim2SF v) as [s | s | | s m e]; cbn; try exact I.
  - discriminate.
  - now apply Hn.
Qed.

Lemma add_not_nan (a b : float) :
  is_nan a = false -> is_finite b = true -> is_nan (a + b) = false.
Proof.
  intros Ha Hb. apply is_nan_spec. rewrite add_spec.
  apply SFadd_not_nan; [now apply is_nan_spec | now apply is_finite_spec].
Qed.

(** [Math.max(0.1, size + v)] stays on or above the floor. *)
Lemma floor_kept (size0 v : float) :
  (0.1 <=? size0)%float = true -> is_finite v = true ->
  (0.1 <=? JS.max 0.1 (size0 + v))%float = true.
Proof.
  intros Hs Hv. apply le_not_nan in Hs. destruct Hs as [H01 Hs].
  destruct (max_cases 0.1 (size0 + v) H01 (add_not_nan _ _ Hs Hv))
    as [[-> _] | [-> H]]; [reflexivity | exact H].
Qed.

End FloatFacts.

(** * The timer queue *)

Section TimerQueue.

Variable rt : Runtime.

Lemma enqueue_In (t x : Timer) (queue : list Timer) :
  In x (enqueue t queue) <-> x = t \/ In x queue.
Proof.
  induction queue as [|t0 queue IH]; cbn.
  - intuition.
  - destruct (fst t0 <=? fst t)%Z; cbn; rewrite ?IH; intuition.
Qed.

Lemma enqueue_sorted (t : Timer) (queue : list Timer) :
  byDueTime queue -> byDueTime (enqueue t queue).
Proof.
  unfold byDueTime. induction 1 as [|t0 queue Hs IH Hall]; cbn.
  - repeat constructor.
  - destruct (fst t0 <=? fst t)%Z eqn:E.
    + constructor; [exact IH|].
      apply Forall_forall. intros x Hx. apply enqueue_In in Hx.
      destruct Hx as [-> | Hx]; [now apply Z.leb_le|].
      now apply (proj1 (Forall_forall _ _) Hall).
    + apply Z.leb_gt in E. constructor; [now constructor|].
      constructor; [lia|].
      eapply Forall_impl; [|exact Hall]. cbn. intros x Hx. lia.
Qed.

Lemma enqueue_last (t : Timer) (queue : list Timer) :
  Forall (fun x => (fst x <= fst t)%Z) queue -> enqueue t queue = queue ++ [t].
Proof.
  induction 1 as [|t0 queue H0 _ IH]; cbn; [reflexivity|].
  apply Z.leb_le in H0. now rewrite H0, IH.
Qed.

Lemma workload_cons (t : Timer) (queue : list Timer) :
  workload (t :: queue) = (pendingRuns t + workload queue)%nat.
Proof. reflexivity. Qed.

Lemma workload_enqueue (t : Timer) (queue : list Timer) :
  workload (enqueue t queue) = (pendingRuns t + workload queue)%nat.
Proof.
  induction queue as [|t0 queue IH]; cbn [enqueue]; [reflexivity|].
  destruct (fst t0 <=? fst t)%Z; rewrite !workload_cons, ?IH; lia.
Qed.

Lemma workload_bound (queue : list Timer) :
  (workload queue <= 2 * List.length queue)%nat.
Proof.
  induction queue as [|[due cb] queue IH]; [cbn; lia|].
  rewrite workload_cons. cbn [List.length]. unfold pendingRuns. cbn [snd].
  destruct cb as [spriteId action [|] | spriteId | id1 id2]; lia.
Qed.

(** What running a callback does to the queue it was taken from. *)
Lemma timers_fire (cb : Callback) (w : World) :
  timers (fire rt cb w)
  = match cb with
    | RunAction spriteId _ true =>
        enqueue ((now w + 1000)%Z, StopSprite spriteId) (timers w)
    | _ => timers w
    end.
Proof.
  destruct cb as [spriteId action [|] | spriteId | id1 id2]; cbn;
    try reflexivity;
    now destruct (runAction rt spriteId action (draws w) (sprites w)).
Qed.

Lemma now_fire (cb : Callback) (w : World) : now (fire rt cb w) = now w.
Proof.
  destruct cb as [spriteId action [|] | spriteId | id1 id2]; cbn;
    try reflexivity;
    now destruct (runAction rt spriteId action (draws w) (sprites w)).
Qed.

Lemma fire_sorted (cb : Callback) (w : World) :
  byDueTime (timers w) -> byDueTime (timers (fire rt cb w)).
Proof.
  intros H. rewrite timers_fire.
  destruct cb as [spriteId action [|] | spriteId | id1 id2]; try exact H.
  now apply enqueue_sorted.
Qed.

(** With more fuel than the queue's workload, [elapse] runs every timer
    that is due by [t], and the clock reaches [t]. *)
Lemma elapse_settles (t : Z) (fuel : nat) :
  forall w,
    byDueTime (timers w) ->
    (workload (timers w) < fuel)%nat ->
    Forall (fun x => (t < fst x)%Z) (timers (elapse rt fuel t w))
    /\ (t <= now (elapse rt fuel t w))%Z
    /\ byDueTime (timers (elapse rt fuel t w)).
Proof.
  induction fuel as [|fuel IH]; intros w Hs Hfuel; [lia|].
  cbn [elapse].
  destruct (timers w) as [|[due cb] rest] eqn:Hq.
  - cbn. repeat split; [constructor | lia | constructor].
  - destruct (due <=? t)%Z eqn:Hdue.
    + apply IH.
      * apply fire_sorted. cbn. now inversion Hs.
      * rewrite timers_fire. cbn [timers setClock now].
        rewrite workload_cons in Hfuel.
        unfold pendingRuns in Hfuel. cbn [snd] in Hfuel.
        destruct cb as [spriteId action [|] | spriteId | id1 id2];
          rewrite ?workload_enqueue; unfold pendingRuns; cbn [snd]; lia.
    + apply Z.leb_gt in Hdue. cbn. repeat split; [|lia|exact Hs].
      inversion Hs as [|? ? _ Hall]; subst.
      constructor; [exact Hdue|].
      eapply Forall_impl; [|exact Hall]. cbn. intros x Hx. lia.
Qed.

(** The fuel of [advanceTo] is enough: afterwards no timer that was due by
    [t] is left, whatever the queue. *)
Lemma advanceTo_settles (t : Z) (w : World) :
  byDueTime (timers w) ->
  Forall (fun x => (t < fst x)%Z) (timers (advanceTo rt t w))
  /\ (t <= now (advanceTo rt t w))%Z
  /\ byDueTime (timers (advanceTo rt t w)).
Proof.
  intros Hs. apply elapse_settles; [exact Hs|].
  pose proof (workload_bound (timers w)). lia.
Qed.

End TimerQueue.

Lemma setTimeout_sorted (cb : Callback) (delay : Z) (w : World) :
  byDueTime (timers w) -> byDueTime (timers (setTimeout cb delay w)).
Proof. apply enqueue_sorted. Qed.

Lemma scheduleActions_sorted (spriteId : string)
  (actions : list ActionBlock.t) :
  forall (index : nat) (w : World),
    byDueTime (timers w) ->
    byDueTime (timers (scheduleActions spriteId actions index w)).
Proof.
  induction actions as [|action rest IH]; intros index w H; cbn.
  - exact H.
  - now apply IH, setTimeout_sorted.
Qed.

Lemma scheduleEntries_sorted (entries : ActionBlocks) :
  forall w : World,
    byDueTime (timers w) ->
    byDueTime
      (timers
         (fold_left
            (fun acc entry => scheduleActions (fst entry) (snd entry) 0 acc)
            entries w)).
Proof.
  induction entries as [|[spriteId actions] entries IH]; intros w H; cbn.
  - exact H.
  - now apply IH, scheduleActions_sorted.
Qed.

Lemma runEffects_sorted (w : World) :
  byDueTime (timers w) -> byDueTime (timers (runEffects w)).
Proof.
  intros H. unfold runEffects, scheduleAll. cbn [isPlaying setFrame].
  destruct (isPlaying w); [|exact H].
  now apply scheduleEntries_sorted.
Qed.

Lemma togglePlay_sorted (w : World) :
  byDueTime (timers w) -> byDueTime (timers (togglePlay w)).
Proof. intros H. now apply runEffects_sorted. Qed.

(** The sequencer's contract, for any queue: on a world with no timer due
    later than the trigger, the timers added for a sprite are exactly those
    of [actionTimers]: the action at index [i] is due [i] seconds after the
    trigger. *)
Lemma scheduleActions_timers (spriteId : string)
  (actions : list ActionBlock.t) :
  forall (index : nat) (w : World),
    Forall (fun x => (fst x <= now w + Z.of_nat index * 1000)%Z) (timers w) ->
    timers (scheduleActions spriteId actions index w)
    = timers w ++ actionTimers spriteId actions index (now w)
    /\ now (scheduleActions spriteId actions index w) = now w.
Proof.
  induction actions as [|action rest IH]; intros index w H;
    cbn [scheduleActions actionTimers].
  - now rewrite app_nil_r.
  - destruct (IH (S index)
                (setTimeout
                   (RunAction spriteId action
                      match rest with [] => true | _ :: _ => false end)
                   (Z.of_nat index * 1000) w)) as [Ht Hn].
    + cbn [timers setTimeout now]. rewrite enqueue_last by exact H.
      apply Forall_app. split.
      * eapply Forall_impl; [|exact H]. cbn. intros x Hx. lia.
      * repeat constructor. cbn. lia.
    + rewrite Ht, Hn. cbn [timers setTimeout now].
      rewrite enqueue_last by exact H. now rewrite <- app_assoc.
Qed.

(** * The collision pass only moves sprites and relabels them *)

Section SetAt.
Context {A B : Type}.

Lemma map_setAt (f : A -> B) (l : list A) (i : nat) (x : A) :
  map f (setAt l i x) = setAt (map f l) i (f x).
Proof.
  revert i; induction l as [|y l IH]; intros [|i]; cbn; try reflexivity.
  now rewrite IH.
Qed.

Lemma setAt_same (l : list A) (i : nat) (x : A) :
  nth_error l i = Some x -> setAt l i x = l.
Proof.
  revert i; induction l as [|y l IH]; intros [|i]; cbn;
    try discriminate.
  - now intros [= ->].
  - intros H. now rewrite IH.
Qed.

Lemma length_setAt (l : list A) (i : nat) (x : A) :
  List.length (setAt l i x) = List.length l.
Proof.
  revert i; induction l as [|y l IH]; intros [|i]; cbn; try reflexivity.
  now rewrite IH.
Qed.
End SetAt.

Lemma resolvePair_untouched (blocks : ActionBlocks) (i j : nat)
  (st : list Sprite.t * list Effect) :
  map untouched (fst (resolvePair blocks i j st)) = map untouched (fst st).
Proof.
  destruct st as [sprites0 effects]. unfold resolvePair.
  destruct (nth_error sprites0 i) as [si|] eqn:Hi; [|reflexivity].
  destruct (nth_error sprites0 j) as [sj|] eqn:Hj; [|reflexivity].
  destruct (checkCollision si sj); [|reflexivity].
  match goal with
  | |- context [if ?c then _ else _] => destruct c
  end; cbn [fst]; rewrite !map_setAt;
    match goal with
    | |- setAt (setAt _ i ?a) j ?b = _ =>
        change a with (untouched si); change b with (untouched sj)
    end;
    rewrite (setAt_same (map untouched sprites0) i (untouched si))
      by (now rewrite nth_error_map, Hi);
    apply setAt_same; now rewrite nth_error_map, Hj.
Qed.

Lemma resolvePair_length (blocks : ActionBlocks) (i j : nat)
  (st : list Sprite.t * list Effect) :
  List.length (fst (resolvePair blocks i j st)) = List.length (fst st).
Proof.
  rewrite <- (length_map untouched), resolvePair_untouched.
  apply length_map.
Qed.

Lemma innerLoop_untouched (blocks : ActionBlocks) (i : nat)
  (st : list Sprite.t * list Effect) :
  map untouched (fst (innerLoop blocks i st)) = map untouched (fst st).
Proof.
  unfold innerLoop.
  generalize (seq (S i) (List.length (fst st) - S i)) as js.
  intros js; revert st; induction js as [|j js IH]; intros st; cbn.
  - reflexivity.
  - rewrite IH. apply resolvePair_untouched.
Qed.

(** C10: a full collision pass leaves every sprite's id, type, direction,
    size and is-animating flag (and its thinking text and animation list)
    as they were, whatever the sprite list and the queue store; only
    velocity, position and the saying text of a sprite (and, through the
    effects, the queue store) can differ afterwards. *)
Theorem handleCollisions_untouched (blocks : ActionBlocks)
  (sprites0 : list Sprite.t) :
  map untouched (fst (handleCollisions blocks sprites0))
  = map untouched sprites0.
Proof.
  unfold handleCollisions.
  generalize (seq 0 (List.length sprites0)) as rows.
  change sprites0 with (fst (sprites0, @nil Effect)) at 2.
  generalize (sprites0, @nil Effect) as st.
  intros st rows; revert st; induction rows as [|i rows IH]; intros st; cbn.
  - reflexivity.
  - rewrite IH. apply innerLoop_untouched.
Qed.

(** Without an overlap the pass changes nothing and has no effect. *)
Lemma resolvePair_idle (blocks : ActionBlocks) (i j : nat)
  (l : list Sprite.t) (effects : list Effect) :
  overlapFree l -> (i < j)%nat ->
  resolvePair blocks i j (l, effects) = (l, effects).
Proof.
  intros Hfree Hij. unfold resolvePair.
  destruct (nth_error l i) as [si|] eqn:Hi; [|reflexivity].
  destruct (nth_error l j) as [sj|] eqn:Hj; [|reflexivity].
  now rewrite (Hfree i j si sj Hij Hi Hj).
Qed.

Lemma innerLoop_idle (blocks : ActionBlocks) (i : nat)
  (l : list Sprite.t) (effects : list Effect) :
  overlapFree l -> innerLoop blocks i (l, effects) = (l, effects).
Proof.
  intros Hfree. unfold innerLoop. cbn [fst].
  assert (H : forall js, Forall (fun j => (i < j)%nat) js ->
                fold_left (fun acc j => resolvePair blocks i j acc) js
                  (l, effects) = (l, effects)).
  { induction 1 as [|j js Hj _ IH]; cbn [fold_left]; [reflexivity|].
    now rewrite resolvePair_idle. }
  apply H, Forall_forall. intros j Hj. apply in_seq in Hj. lia.
Qed.

Lemma handleCollisions_idle (blocks : ActionBlocks) (l : list Sprite.t) :
  overlapFree l -> handleCollisions blocks l = (l, []).
Proof.
  intros Hfree. unfold handleCollisions.
  generalize (seq 0 (List.length l)) as rows.
  induction rows as [|i rows IH]; cbn [fold_left]; [reflexivity|].
  now rewrite innerLoop_idle.
Qed.

(** * Wall bounce *)


Lemma stepSprite_lone (blocks : ActionBlocks) (stageRef : option Element)
  (deltaTime : JS.number) (sprite : Sprite.t) :
  animateTick blocks stageRef deltaTime [sprite]
  = ([stepSprite stageRef deltaTime sprite], []).
Proof. reflexivity. Qed.

Lemma bounce_axis (pos vel deltaTime limit : JS.number) :
  JS.le 0 limit ->
  JS.le (pos + vel * deltaTime) 0 \/ JS.le limit (pos + vel * deltaTime) ->
  (if ((pos + vel * deltaTime <=? 0) || (limit <=? pos + vel * deltaTime))%float
   then (- vel)%float else vel) = (- vel)%float
  /\ JS.le 0 (JS.max 0 (JS.min (pos + vel * deltaTime) limit))
  /\ JS.le (JS.max 0 (JS.min (pos + vel * deltaTime) limit)) limit.
Proof.
  unfold JS.le. intros Hlimit Hcross. split.
  - destruct Hcross as [-> | ->]; [reflexivity | now rewrite orb_true_r].
  - apply FloatFacts.clamp_bounds; [assumption|].
    destruct Hcross as [H | H]; now apply FloatFacts.le_not_nan in H.
Qed.






(** The stepper on its own keeps an animating sprite in the stage. *)
Lemma stepSprite_in_stage (stageRef : option Element) (deltaTime : JS.number)
  (sprite : Sprite.t) :
  Sprite.isAnimating sprite = true ->
  JS.le 0 (stageWidthOf stageRef) ->
  JS.le 0 (stageHeightOf stageRef) ->
  is_nan (Sprite.x sprite + Sprite.velocityX sprite * deltaTime) = false ->
  is_nan (Sprite.y sprite + Sprite.velocityY sprite * deltaTime) = false ->
  inStage stageRef (stepSprite stageRef deltaTime sprite) = true.
Proof.
  unfold JS.le. intros Hanim Hw Hh Hx Hy.
  unfold stepSprite, inStage. rewrite Hanim.
  cbn [negb Sprite.x Sprite.y].
  destruct (FloatFacts.clamp_bounds _ _ Hw Hx) as [-> ->].
  destruct (FloatFacts.clamp_bounds _ _ Hh Hy) as [-> ->].
  reflexivity.
Qed.



Example wall_bounce_right_wall :
  stepSprite None 0.016 (Scenario.sprite "s" 599 300 100 0 true)
  = Scenario.sprite "s" 600 300 (-100) 0 true.
Proof. reflexivity. Qed.

(** * The collision pass on two sprites *)

Lemma lookup_setBlocks (blocks : ActionBlocks) (k k' : string)
  (q : list ActionBlock.t) :
  lookupBlocks (setBlocks blocks k q) k'
  = if String.eqb k k' then Some q else lookupBlocks blocks k'.
Proof.
  induction blocks as [|[k0 q0] rest IH]; cbn.
  - reflexivity.
  - destruct (String.eqb k0 k) eqn:E0; cbn.
    + apply String.eqb_eq in E0. subst k0.
      now destruct (String.eqb k k').
    + rewrite IH. destruct (String.eqb k0 k') eqn:E1; [|reflexivity].
      apply String.eqb_eq in E1. subst k0.
      now rewrite String.eqb_sym, E0.
Qed.

Lemma blocksOrEmpty_setBlocks (blocks : ActionBlocks) (k k' : string)
  (q : list ActionBlock.t) :
  blocksOrEmpty (setBlocks blocks k q) k'
  = if String.eqb k k' then q else blocksOrEmpty blocks k'.
Proof.
  unfold blocksOrEmpty. rewrite lookup_setBlocks.
  now destruct (String.eqb k k').
Qed.

Lemma handleCollisions_pair (blocks : ActionBlocks) (A B : Sprite.t) :
  handleCollisions blocks [A; B] = resolvePair blocks 0 1 ([A; B], []).
Proof.
  unfold handleCollisions. cbn [List.length seq fold_left].
  unfold innerLoop. cbn [fst List.length Nat.sub seq fold_left].
  rewrite resolvePair_length. reflexivity.
Qed.

(** Whatever their positions and sizes, two overlapping sprites with
    different ids leave the pass with each other's velocity and each other's
    queue. *)
Lemma pair_swap (blocks : ActionBlocks) (A B : Sprite.t) :
  checkCollision A B = true ->
  Sprite.id A <> Sprite.id B ->
  exists A' B' effects,
    handleCollisions blocks [A; B] = ([A'; B'], effects)
    /\ velocity A' = velocity B /\ velocity B' = velocity A
    /\ blocksOrEmpty (storeAfter effects blocks) (Sprite.id A)
       = blocksOrEmpty blocks (Sprite.id B)
    /\ blocksOrEmpty (storeAfter effects blocks) (Sprite.id B)
       = blocksOrEmpty blocks (Sprite.id A).
Proof.
  intros Hhit Hid.
  rewrite handleCollisions_pair. unfold resolvePair.
  cbn [nth_error]. rewrite Hhit.
  match goal with
  | |- context [if ?c then _ else _] => destruct c
  end; cbn [setAt]; (do 3 eexists); (split; [reflexivity|]);
    cbn [velocity Sprite.velocityX Sprite.velocityY Sprite.id storeAfter
         fold_left spreadBlocks fst snd app];
    rewrite !blocksOrEmpty_setBlocks;
    apply String.eqb_neq in Hid; rewrite String.eqb_sym in Hid;
    rewrite !String.eqb_refl, Hid;
    repeat split; reflexivity.
Qed.

(** Away from the degenerate placement the pair ends at exactly the
    minimum separation. *)
Example pair_separated :
  let out := fst (handleCollisions Scenario.pairStore
                    (Scenario.pairAt 100 100 130 100)) in
  map position out = [(91, 100); (139, 100)]%float
  /\ map velocity out = [(-50, 0); (50, 0)]%float.
Proof. split; reflexivity. Qed.

(** C2: at identical centres the resolver has no fallback: the distance is
    0, the correction factor is [minDistance / 0], and both sprites leave
    the pass with NaN coordinates. *)
Theorem coincident_centres_not_guarded :
  map (fun s => (is_nan (Sprite.x s), is_nan (Sprite.y s)))
    (fst (handleCollisions Scenario.pairStore
            (Scenario.pairAt 100 100 100 100)))
  = [(true, true); (true, true)].
Proof. reflexivity. Qed.

(** C6: the swap happens, but for the overlapping placement with identical
    centres the pair does not end at the minimum separation: velocities and
    queues are exchanged while the centre distance is NaN, which no
    tolerance brings up to the minimum. *)
Theorem collision_swap_coincident :
  let '(out, effects) :=
    handleCollisions Scenario.pairStore (Scenario.pairAt 100 100 100 100) in
  Scenario.overlapping (Scenario.pairAt 100 100 100 100) = true
  /\ map velocity out = [(-50, 0); (50, 0)]%float
  /\ storeAfter effects Scenario.pairStore
     = [("A", [Scenario.b1]); ("B", [Scenario.a1])]
  /\ exists A' B',
      out = [A'; B']
      /\ minSeparation A' B' = 48%float
      /\ forall tolerance,
          (minSeparation A' B' - tolerance <=? centreDistance A' B')%float
          = false.
Proof.
  cbv zeta. cbn -[centreDistance minSeparation].
  split; [reflexivity | split; [reflexivity | split; [reflexivity|]]].
  do 2 eexists. split; [reflexivity | split; [reflexivity|]].
  intros tolerance. rewrite leb_spec.
  replace (Prim2SF (centreDistance _ _)) with S754_nan by reflexivity.
  unfold SFleb. now destruct (Prim2SF _).
Qed.

(** C5: a tick does not keep sprites in the stage: two overlapping sprites
    at the left wall of the 600 x 600 stage, both inside it, and the
    separation step stores the first at x = -19. *)
Theorem tick_leaves_stage :
  let before := [Scenario.sprite "A" 0 100 0 0 true;
                 Scenario.sprite "B" 10 100 0 0 true] in
  let after := fst (animateTick [] None 0.016 before) in
  map (inStage None) before = [true; true]
  /\ map position after = [(-19, 100); (29, 100)]%float
  /\ map (inStage None) after = [false; true].
Proof. repeat split. Qed.

(** C4: a negative turn leaves the direction negative: from direction 0,
    turning by -90 stores -90, not 270. *)
Theorem turn_negative_not_normalized (rt : Runtime) :
  let stored :=
    fst (applyAction rt (Scenario.block "left" turn (-90)) 0
           (Scenario.sprite "s" 300 300 0 0 false)) in
  Sprite.direction stored = (-90)%float
  /\ (Sprite.direction stored <? 0)%float = true.
Proof. split; reflexivity. Qed.

(** A quarter turn from 270 does come back to 0. *)
Example turn_positive_wraps (rt : Runtime) :
  Sprite.direction
    (applyActions rt (repeat (Scenario.block "right" turn 90) 4)
       (Scenario.sprite "s" 300 300 0 0 false))
  = 0%float.
Proof. reflexivity. Qed.

(** * Scale floor *)

Lemma applyAction_floor (rt : Runtime) (action : ActionBlock.t) (draws0 : nat)
  (sprite : Sprite.t) :
  JS.le 0.1 (Sprite.size sprite) -> wellFormed action ->
  JS.le 0.1 (Sprite.size (fst (applyAction rt action draws0 sprite))).
Proof.
  unfold JS.le, wellFormed, applyAction. intros Hs Hv.
  destruct (ActionBlock.type action); cbn; try exact Hs.
  now apply FloatFacts.floor_kept.
Qed.

Lemma applyActions_floor (rt : Runtime) (actions : list ActionBlock.t) :
  Forall wellFormed actions ->
  forall acc : Sprite.t * nat,
    JS.le 0.1 (Sprite.size (fst acc)) ->
    JS.le 0.1
      (Sprite.size
         (fst (fold_left
                 (fun acc action =>
                    applyAction rt action (snd acc) (fst acc))
                 actions acc))).
Proof.
  induction 1 as [|action actions Hwf _ IH]; intros acc Hacc; cbn.
  - exact Hacc.
  - apply IH. now apply applyAction_floor.
Qed.

(** C7 (amended): through every program of well-formed actions, and so
    through every sequence of change-scale-by actions, a scale that starts
    on or above the floor 0.1 stays on or above it; eleven times "decrease
    by 0.1" from scale 1.0 ends exactly on the floor, at 0.1. *)
Theorem scale_floor (rt : Runtime) (actions : list ActionBlock.t)
  (sprite : Sprite.t) :
  JS.le 0.1 (Sprite.size sprite) ->
  Forall wellFormed actions ->
  JS.le 0.1 (Sprite.size (applyActions rt actions sprite))
  /\ Sprite.size
       (applyActions rt Scenario.shrinkEleven
          (Scenario.sprite "s" 300 300 0 0 false))
     = 0.1%float.
Proof.
  intros Hs Hwf. split; [|reflexivity].
  unfold applyActions. now apply applyActions_floor.
Qed.

Lemma scale_floor_witness :
  JS.le 0.1
    (Sprite.size
       (applyActions Scenario.host Scenario.shrinkEleven
          (Scenario.sprite "s" 300 300 0 0 false))).
Proof.
  apply (scale_floor Scenario.host Scenario.shrinkEleven
           (Scenario.sprite "s" 300 300 0 0 false)).
  - reflexivity.
  - repeat constructor.
Defined.

(** C7 as stated fails: the scale does reach the floor.  After the tenth
    and the eleventh decrease from 1.0 it is 0.1, so it is at the floor and
    not above it. *)
Lemma scale_reaches_floor :
  let after n :=
    Sprite.size
      (applyActions Scenario.host
         (repeat (Scenario.block "shrink" size (-0.1)) n)
         (Scenario.sprite "s" 300 300 0 0 false)) in
  after 9%nat = 0.10000000000000014%float
  /\ after 10%nat = 0.1%float
  /\ after 11%nat = 0.1%float
  /\ (after 11%nat <=? 0.1)%float = true
  /\ (0.1 <? after 11%nat)%float = false.
Proof. repeat split. Qed.

(** * Deleting a sprite *)

(** C3 as stated fails: the deleted sprite's queue is still in the store. *)
Lemma deleteSprite_keeps_queue :
  let w := deleteSprite "sprite-1" Scenario.oneSprite in
  sprites w = []
  /\ selectedSprite w = None
  /\ lookupBlocks (actionBlocks w) "sprite-1" = Some [Scenario.a1].
Proof. repeat split. Qed.

(** C3 (amended): deleting a sprite by id removes the sprites with that id
    and no other from the collection, clears the selection exactly when it
    pointed to that id, and leaves the Action Queue Store, the deleted
    sprite's queue included, as it was. *)
Theorem deleteSprite_spec (id : string) (w : World) :
  (forall s, In s (sprites (deleteSprite id w))
             <-> In s (sprites w) /\ Sprite.id s <> id)
  /\ (selectedSprite w = Some id ->
      selectedSprite (deleteSprite id w) = None)
  /\ (selectedSprite w <> Some id ->
      selectedSprite (deleteSprite id w) = selectedSprite w)
  /\ actionBlocks (deleteSprite id w) = actionBlocks w
  /\ timers (deleteSprite id w) = timers w
  /\ isPlaying (deleteSprite id w) = isPlaying w.
Proof.
  split; [|split; [|split; [|repeat split]]]; cbn.
  - intros s. rewrite filter_In, negb_true_iff, String.eqb_neq.
    reflexivity.
  - intros ->. now rewrite String.eqb_refl.
  - intros Hne. destruct (selectedSprite w) as [sel|]; [|reflexivity].
    destruct (String.eqb sel id) eqn:E; [|reflexivity].
    apply String.eqb_eq in E. congruence.
Qed.

(** * The sequencer's timeline *)

Ltac decide_due :=
  repeat match goal with
    | |- context [(?a <=? ?b)%Z] =>
        first
          [ replace (a <=? b)%Z with true by (symmetry; apply Z.leb_le; lia)
          | replace (a <=? b)%Z with false by (symmetry; apply Z.leb_gt; lia) ]
    end.

Lemma elapse_S (rt : Runtime) (fuel : nat) (t : Z) (w : World) :
  elapse rt (S fuel) t w
  = match timers w with
    | (due, cb) :: rest =>
        if (due <=? t)%Z
        then elapse rt fuel t
               (fire rt cb (setClock (Z.max (now w) due) rest w))
        else setClock (Z.max (now w) t) (timers w) w
    | [] => setClock (Z.max (now w) t) [] w
    end.
Proof. reflexivity. Qed.

(** Runs the event loop on a world whose clock is symbolic, one timer at a
    time. *)
Ltac eval_world :=
  cbv -[elapse advanceTo Z.leb Z.max Z.add Z.mul Z.of_nat JS.rem];
  decide_due.

Ltac run_world :=
  eval_world; unfold advanceTo;
  repeat (progress (eval_world; rewrite ?elapse_S)).

Lemma quarter_turn : JS.rem 90 360 = 90%float.
Proof. reflexivity. Qed.

Lemma half_turn : JS.rem (90 + 90) 360 = 180%float.
Proof. reflexivity. Qed.

(** C8 as stated fails: the first action has delay 0, so half a unit after
    the trigger the sprite already faces 90, one and a half units after it
    faces 180, and two and a half units after it the sequence is over. *)
Lemma sequencer_not_delayed :
  let w0 := togglePlay (Scenario.rotateTwice 0 20 10) in
  map pose (sprites (advanceTo Scenario.host 500 w0))
  = [(90, true, (20, 10))]%float
  /\ map pose (sprites (advanceTo Scenario.host 1500 w0))
     = [(180, true, (20, 10))]%float
  /\ map pose (sprites (advanceTo Scenario.host 2500 w0))
     = [(180, false, (0, 0))]%float
  /\ timers (advanceTo Scenario.host 2500 w0) = [].
Proof. repeat split. Qed.

(** C8 (amended): for a sprite whose queue is [rotate 90, rotate 90] when
    playback is triggered at time [t], the action at 0-based index [i] is
    due [i] seconds after the trigger and sets is-animating; the direction
    is unchanged at [t] until the timers run, is 90 once the zero-delay
    timer has run and up to [t + 1s], and 180 from [t + 1s] on; one second
    after the last action, at [t + 2s], a further timer sets the velocity
    to zero and is-animating to false, and nothing is left pending. *)
Theorem sequencer_timeline (rt : Runtime) (t : Z) (vx vy : JS.number) :
  let w0 := togglePlay (Scenario.rotateTwice t vx vy) in
  let after ms := advanceTo rt (t + ms) w0 in
  map timerKind (timers w0)
  = [(t + 0, "action", "sprite-1"); (t + 1000, "action", "sprite-1")]%Z
  /\ map pose (sprites w0) = [(0%float, false, (vx, vy))]
  /\ map pose (sprites (after 0%Z)) = [(90%float, true, (vx, vy))]
  /\ map pose (sprites (after 999%Z)) = [(90%float, true, (vx, vy))]
  /\ map pose (sprites (after 1000%Z)) = [(180%float, true, (vx, vy))]
  /\ map timerKind (timers (after 1000%Z))
     = [(t + 2000, "stop", "sprite-1")]%Z
  /\ map pose (sprites (after 1999%Z)) = [(180%float, true, (vx, vy))]
  /\ map pose (sprites (after 2000%Z)) = [(180, false, (0, 0))]%float
  /\ timers (after 2000%Z) = [].
Proof.
  cbv zeta. repeat split; run_world;
    rewrite ?quarter_turn, ?half_turn; try reflexivity.
  do 3 f_equal. lia.
Qed.

(** * Stopping and resetting *)

Lemma fire_no_sprites (rt : Runtime) (cb : Callback) (w : World) :
  sprites w = [] -> sprites (fire rt cb w) = [].
Proof.
  intros H. destruct cb as [spriteId action last | spriteId | id1 id2];
    cbn; rewrite H; cbn; [|reflexivity..].
  now destruct last.
Qed.

Lemma elapse_no_sprites (rt : Runtime) (fuel : nat) (t : Z) :
  forall w, sprites w = [] -> sprites (elapse rt fuel t w) = [].
Proof.
  induction fuel as [|fuel IH]; intros w H; cbn; [exact H|].
  destruct (timers w) as [|[due cb] rest]; [exact H|].
  destruct (due <=? t)%Z; [|exact H].
  apply IH, fire_no_sprites. exact H.
Qed.

(** C1 as stated fails.  Play is pressed on two overlapping sprites, the
    first with two queued rotations; a frame runs at 16 ms and resolves the
    collision; Stop is pressed at 500 ms.  An action timer, the clear timer
    and the re-scheduled actions are still pending at that moment, and they
    all run afterwards: directions, sayings and the animating flags of both
    sprites change after the stop. *)
Lemma stop_leaves_timers :
  let played :=
    frame (advanceTo Scenario.host 16 (togglePlay Scenario.clash)) in
  let stopped := togglePlay (advanceTo Scenario.host 500 played) in
  let later := advanceTo Scenario.host 5000 stopped in
  isPlaying stopped = false
  /\ frameRequested stopped = false
  /\ map timerKind (timers stopped)
     = [(1000, "action", "A"); (1016, "clear", "A"); (1016, "action", "B")]%Z
  /\ map (fun s => (pose s, Sprite.saying s)) (sprites stopped)
     = [((90, true, (0, 0)), "Swapping!");
        ((90, true, (0, 0)), "Bouncing!")]%float
  /\ map (fun s => (pose s, Sprite.saying s)) (sprites later)
     = [((180, false, (0, 0)), ""); ((180, false, (0, 0)), "")]%float.
Proof. repeat split. Qed.

(** C1 (amended): when playback goes from Playing to Stopped, and on a
    full reset, the frame loop is cancelled and nothing else: no frame is
    outstanding and a frame event changes nothing, while every timer that
    was pending (sequencer actions, post-sequence stops, message clears) is
    still pending.  A stop leaves the sprites as they are; a reset empties
    the sprite collection, the queue store and the selection, so the timers
    that run later find no sprite to change. *)
Theorem stop_cancels_frame_loop_only (rt : Runtime) (t : Z) (w : World) :
  (isPlaying w = true ->
   isPlaying (togglePlay w) = false
   /\ frameRequested (togglePlay w) = false
   /\ frame (togglePlay w) = togglePlay w
   /\ timers (togglePlay w) = timers w
   /\ sprites (togglePlay w) = sprites w)
  /\ (isPlaying (resetAll w) = false
      /\ frameRequested (resetAll w) = false
      /\ frame (resetAll w) = resetAll w
      /\ timers (resetAll w) = timers w
      /\ sprites (resetAll w) = []
      /\ actionBlocks (resetAll w) = []
      /\ selectedSprite (resetAll w) = None
      /\ sprites (advanceTo rt t (resetAll w)) = []).
Proof.
  split.
  - intros Hplay. unfold togglePlay, runEffects, frame. cbn.
    rewrite Hplay. cbn. repeat split; reflexivity.
  - do 7 (split; [reflexivity|]).
    unfold advanceTo. now apply elapse_no_sprites.
Qed.

Lemma stop_cancels_frame_loop_only_witness :
  let w := advanceTo Scenario.host 500
             (togglePlay (Scenario.rotateTwice 0 0 0)) in
  isPlaying w = true
  /\ map timerKind (timers w) = [(1000, "action", "sprite-1")]%Z
  /\ timers (togglePlay w) = timers w.
Proof.
  split; [reflexivity | split; [reflexivity|]].
  exact (proj1 (proj2 (proj2 (proj2
           (proj1
              (stop_cancels_frame_loop_only Scenario.host 5000
                 (advanceTo Scenario.host 500
                    (togglePlay (Scenario.rotateTwice 0 0 0))))
              eq_refl))))).
Defined.

(** * More of the engine: what a tick keeps *)

Lemma stepSprite_untouched (stageRef : option Element) (deltaTime : JS.number)
  (sprite : Sprite.t) :
  untouched (stepSprite stageRef deltaTime sprite) = untouched sprite
  /\ Sprite.saying (stepSprite stageRef deltaTime sprite)
     = Sprite.saying sprite.
Proof.
  unfold stepSprite.
  destruct (Sprite.isAnimating sprite) eqn:E; unfold untouched; cbn;
    rewrite ?E; split; reflexivity.
Qed.

Lemma handleCollisions_keeps (blocks : ActionBlocks) (l : list Sprite.t) :
  map untouched (fst (handleCollisions blocks l)) = map untouched l.
Proof.
  unfold handleCollisions.
  generalize (seq 0 (List.length l)) as rows.
  change l with (fst (l, @nil Effect)) at 2.
  generalize (l, @nil Effect) as st.
  intros st rows; revert st; induction rows as [|i rows IH]; intros st;
    cbn [fold_left]; [reflexivity|].
  rewrite IH. apply innerLoop_untouched.
Qed.

Lemma tick_keeps (blocks : ActionBlocks) (stageRef : option Element)
  (deltaTime : JS.number) (prevSprites : list Sprite.t) :
  map untouched (fst (animateTick blocks stageRef deltaTime prevSprites))
  = map untouched prevSprites.
Proof.
  unfold animateTick. rewrite handleCollisions_keeps, map_map.
  apply map_ext. intros s. apply stepSprite_untouched.
Qed.

(** X1: a whole tick (stepper, then collision pass) keeps the number and
    order of the sprites and, for each of them, its id, type, direction,
    size, is-animating flag, thinking text and animation list. *)
Theorem animateTick_untouched (blocks : ActionBlocks)
  (stageRef : option Element) (deltaTime : JS.number)
  (prevSprites : list Sprite.t) :
  map untouched (fst (animateTick blocks stageRef deltaTime prevSprites))
  = map untouched prevSprites
  /\ List.length (fst (animateTick blocks stageRef deltaTime prevSprites))
     = List.length prevSprites.
Proof.
  split; [apply tick_keeps|].
  rewrite <- (length_map untouched), tick_keeps. apply length_map.
Qed.

(** X2: when no sprite is animating and no two sprites overlap, a tick
    returns the sprite list as it is and has no side effect. *)
Theorem animateTick_at_rest (blocks : ActionBlocks)
  (stageRef : option Element) (deltaTime : JS.number)
  (prevSprites : list Sprite.t) :
  Forall (fun s => Sprite.isAnimating s = false) prevSprites ->
  overlapFree prevSprites ->
  animateTick blocks stageRef deltaTime prevSprites = (prevSprites, []).
Proof.
  intros Hrest.
  assert (Hmap : map (stepSprite stageRef deltaTime) prevSprites
                 = prevSprites).
  { induction Hrest as [|s l Hs _ IH]; cbn [map]; [reflexivity|].
    rewrite IH. unfold stepSprite. now rewrite Hs. }
  intros Hfree. unfold animateTick. rewrite Hmap.
  now apply handleCollisions_idle.
Qed.

Lemma overlapFree_far_apart :
  overlapFree [Scenario.sprite "A" 100 100 50 0 false;
               Scenario.sprite "B" 300 100 0 0 false].
Proof.
  intros [|[|i]] [|[|[|j]]] si sj Hij Hi Hj; cbn in Hi, Hj;
    try lia; try discriminate.
  injection Hi as <-. injection Hj as <-. reflexivity.
Qed.

Lemma animateTick_at_rest_witness :
  animateTick Scenario.pairStore None 0.016
    [Scenario.sprite "A" 100 100 50 0 false;
     Scenario.sprite "B" 300 100 0 0 false]
  = ([Scenario.sprite "A" 100 100 50 0 false;
      Scenario.sprite "B" 300 100 0 0 false], []).
Proof.
  apply (animateTick_at_rest Scenario.pairStore None 0.016).
  - repeat constructor.
  - exact overlapFree_far_apart.
Defined.

(** X3: two overlapping sprites with different ids leave the collision
    pass with each other's velocity and each other's queue, whatever their
    positions, sizes and velocities, and the pass asks for one clear timer
    in one second. *)
Theorem collision_exchanges (blocks : ActionBlocks) (A B : Sprite.t) :
  checkCollision A B = true ->
  Sprite.id A <> Sprite.id B ->
  exists A' B' update,
    handleCollisions blocks [A; B]
    = ([A'; B'],
       [SetTimeout (ClearSaying (Sprite.id A) (Sprite.id B)) 1000;
        SetActionBlocks update])
    /\ velocity A' = velocity B /\ velocity B' = velocity A
    /\ Sprite.saying A' = "Swapping!" /\ Sprite.saying B' = "Bouncing!"
    /\ blocksOrEmpty (spreadBlocks blocks update) (Sprite.id A)
       = blocksOrEmpty blocks (Sprite.id B)
    /\ blocksOrEmpty (spreadBlocks blocks update) (Sprite.id B)
       = blocksOrEmpty blocks (Sprite.id A).
Proof.
  intros Hhit Hid.
  rewrite handleCollisions_pair. unfold resolvePair.
  cbn [nth_error]. rewrite Hhit.
  apply String.eqb_neq in Hid. rewrite String.eqb_sym in Hid.
  match goal with
  | |- context [if ?c then _ else _] => destruct c
  end; cbn [setAt app]; (do 3 eexists); (split; [reflexivity|]);
    cbn [velocity Sprite.velocityX Sprite.velocityY Sprite.id Sprite.saying
         fold_left spreadBlocks fst snd];
    rewrite !blocksOrEmpty_setBlocks, !String.eqb_refl, Hid;
    repeat split; reflexivity.
Qed.

Lemma collision_exchanges_witness :
  exists A' B' update,
    handleCollisions Scenario.pairStore (Scenario.pairAt 100 100 130 100)
    = ([A'; B'],
       [SetTimeout (ClearSaying "A" "B") 1000; SetActionBlocks update])
    /\ velocity A' = (-50, 0)%float /\ velocity B' = (50, 0)%float
    /\ Sprite.saying A' = "Swapping!" /\ Sprite.saying B' = "Bouncing!"
    /\ blocksOrEmpty (spreadBlocks Scenario.pairStore update) "A"
       = [Scenario.b1]
    /\ blocksOrEmpty (spreadBlocks Scenario.pairStore update) "B"
       = [Scenario.a1].
Proof.
  apply (collision_exchanges Scenario.pairStore
           (Scenario.sprite "A" 100 100 50 0 true)
           (Scenario.sprite "B" 130 100 (-50) 0 true)).
  - reflexivity.
  - discriminate.
Defined.

(** X4: a sprite list in which no two sprites overlap goes through the
    collision pass unchanged, and the pass has no side effect: no timer, no
    queue update. *)
Theorem handleCollisions_without_overlap (blocks : ActionBlocks)
  (l : list Sprite.t) :
  overlapFree l -> handleCollisions blocks l = (l, []).
Proof.
  intros Hfree. unfold handleCollisions.
  generalize (seq 0 (List.length l)) as rows.
  induction rows as [|i rows IH]; cbn [fold_left]; [reflexivity|].
  now rewrite innerLoop_idle.
Qed.

Lemma handleCollisions_without_overlap_witness :
  handleCollisions Scenario.pairStore
    [Scenario.sprite "A" 100 100 50 0 false;
     Scenario.sprite "B" 300 100 0 0 false]
  = ([Scenario.sprite "A" 100 100 50 0 false;
      Scenario.sprite "B" 300 100 0 0 false], []).
Proof.
  apply (handleCollisions_without_overlap Scenario.pairStore).
  exact overlapFree_far_apart.
Defined.

(** * More facts about binary64 arithmetic *)

Module NumberFacts.

Lemma lt_not_nan (a b : float) :
  (a <? b)%float = true -> is_nan a = false /\ is_nan b = false.
Proof.
  intros H. apply FloatFacts.le_not_nan. now apply FloatFacts.lt_le.
Qed.

Lemma lt_not_ge (a b : float) :
  (a <? b)%float = true -> (b <=? a)%float = false.
Proof.
  rewrite FloatFacts.ltb_cmp, FloatFacts.leb_cmp, (FloatFacts.cmp_antisym a b).
  now destruct (JS.cmp a b) as [[]|].
Qed.

Lemma is_nan_true (a : float) : is_nan a = true -> Prim2SF a = S754_nan.
Proof.
  intros H. destruct (Prim2SF a) eqn:E; try reflexivity;
    assert (Hn : is_nan a = false)
      by (apply FloatFacts.is_nan_spec; rewrite E; discriminate);
    congruence.
Qed.

Lemma is_nan_of_spec (a : float) : Prim2SF a = S754_nan -> is_nan a = true.
Proof.
  intros E. destruct (is_nan a) eqn:H; [reflexivity|].
  apply FloatFacts.is_nan_spec in H. contradiction.
Qed.

(** NaN goes through the arithmetic of the stepper and the overlap test. *)
Lemma add_nan_l (a b : float) : is_nan a = true -> is_nan (a + b) = true.
Proof.
  intros H. apply is_nan_of_spec. rewrite add_spec, (is_nan_true a H).
  reflexivity.
Qed.

Lemma sub_nan_l (a b : float) : is_nan a = true -> is_nan (a - b) = true.
Proof.
  intros H. apply is_nan_of_spec. rewrite sub_spec, (is_nan_true a H).
  reflexivity.
Qed.

Lemma sub_nan_r (a b : float) : is_nan b = true -> is_nan (a - b) = true.
Proof.
  intros H. apply is_nan_of_spec. rewrite sub_spec, (is_nan_true b H).
  unfold SF64sub. now destruct (Prim2SF a).
Qed.

Lemma abs_nan (a : float) : is_nan a = true -> is_nan (abs a) = true.
Proof.
  intros H. apply is_nan_of_spec. rewrite abs_spec, (is_nan_true a H).
  reflexivity.
Qed.

Lemma nan_not_lt (a b : float) : is_nan a = true -> (a <? b)%float = false.
Proof.
  intros H. rewrite ltb_spec, (is_nan_true a H). reflexivity.
Qed.

Lemma max_nan_r (a b : float) : is_nan b = true -> JS.max a b = nan.
Proof. intros H. unfold JS.max. now rewrite H, orb_true_r. Qed.

Lemma min_nan_l (a b : float) : is_nan a = true -> JS.min a b = nan.
Proof. intros H. unfold JS.min. now rewrite H. Qed.

(** Addition commutes, bit for bit. *)
Lemma SFadd_comm (x y : spec_float) : SF64add x y = SF64add y x.
Proof.
  unfold SF64add.
  destruct x as [sx | sx | | sx mx ex], y as [sy | sy | | sy my ey];
    cbn; try reflexivity; try (destruct sx, sy; reflexivity).
  rewrite (Z.min_comm ey ex). f_equal. apply Z.add_comm.
Qed.

Lemma add_comm (a b : float) : (a + b = b + a)%float.
Proof. apply Prim2SF_inj. rewrite !add_spec. apply SFadd_comm. Qed.

(** The sign given to the rounding only ends up as the sign of the
    result. *)
Lemma SFabs_binary_round (s s' : bool) (m : positive) (e : Z) :
  SFabs (binary_round prec emax s m e) = SFabs (binary_round prec emax s' m e).
Proof.
  unfold binary_round. destruct (shl_align _ _ _) as [mz ez].
  unfold binary_round_aux.
  destruct (shr_fexp prec emax (Z.pos mz) ez loc_Exact) as [mrs' e'].
  destruct (shr_fexp prec emax _ e' loc_Exact) as [mrs'' e''].
  destruct (shr_m mrs''); try reflexivity.
  now destruct (e'' <=? emax - prec)%Z.
Qed.

Lemma SFabs_binary_normalize_opp (m e : Z) :
  SFabs (binary_normalize prec emax (- m) e false)
  = SFabs (binary_normalize prec emax m e false).
Proof.
  destruct m as [|p|p]; cbn; try reflexivity; apply SFabs_binary_round.
Qed.

Lemma SFabs_sub_swap (x y : spec_float) :
  SFabs (SF64sub x y) = SFabs (SF64sub y x).
Proof.
  unfold SF64sub.
  destruct x as [sx | sx | | sx mx ex], y as [sy | sy | | sy my ey];
    cbn; try reflexivity; try (destruct sx, sy; reflexivity).
  rewrite (Z.min_comm ey ex).
  match goal with
  | |- SFabs (binary_normalize _ _ (?a - ?b) _ _) = _ =>
      replace (b - a)%Z with (- (a - b))%Z by lia
  end.
  symmetry. apply SFabs_binary_normalize_opp.
Qed.

(** [Math.abs(a - b)] and [Math.abs(b - a)] are the same number. *)
Lemma abs_sub_swap (a b : float) : abs (a - b) = abs (b - a).
Proof.
  apply Prim2SF_inj. rewrite !abs_spec, !sub_spec. apply SFabs_sub_swap.
Qed.

(** Products and sums of finite numbers may overflow but are never NaN. *)
Lemma SFmul_not_nan (x y : spec_float) :
  JS.finite x -> JS.finite y -> SF64mul x y <> S754_nan.
Proof.
  unfold SF64mul.
  destruct x as [sx | sx | | sx mx ex], y as [sy | sy | | sy my ey];
    cbn; intros Hx Hy; try contradiction; try discriminate.
  apply FloatFacts.binary_round_aux_not_nan. lia.
Qed.

Lemma SFadd_not_nan_l (x y : spec_float) :
  JS.finite x -> y <> S754_nan -> SF64add x y <> S754_nan.
Proof.
  intros Hx Hy. rewrite SFadd_comm. now apply FloatFacts.SFadd_not_nan.
Qed.

Lemma step_not_nan (pos vel deltaTime : float) :
  is_finite pos = true -> is_finite vel = true ->
  is_finite deltaTime = true ->
  is_nan (pos + vel * deltaTime) = false.
Proof.
  intros Hp Hv Hd. apply FloatFacts.is_nan_spec.
  rewrite add_spec, mul_spec.
  apply SFadd_not_nan_l; [now apply FloatFacts.is_finite_spec|].
  apply SFmul_not_nan; now apply FloatFacts.is_finite_spec.
Qed.

End NumberFacts.

(** * More of the stepper and the overlap test *)

(** X5: while the tentative position of an animating sprite is strictly
    inside the stage, the stepper is the plain Euler step: it stores
    [x + velocityX * deltaTime] and [y + velocityY * deltaTime] as they are
    and leaves the velocity and every other field alone. *)
Theorem stepSprite_free_flight (stageRef : option Element)
  (deltaTime : JS.number) (sprite : Sprite.t) :
  let newX := (Sprite.x sprite + Sprite.velocityX sprite * deltaTime)%float in
  let newY := (Sprite.y sprite + Sprite.velocityY sprite * deltaTime)%float in
  Sprite.isAnimating sprite = true ->
  (0 <? newX)%float = true -> (newX <? stageWidthOf stageRef)%float = true ->
  (0 <? newY)%float = true -> (newY <? stageHeightOf stageRef)%float = true ->
  stepSprite stageRef deltaTime sprite
  = Sprite.mk (Sprite.id sprite) (Sprite.type sprite) newX newY
      (Sprite.direction sprite) (Sprite.saying sprite)
      (Sprite.thinking sprite) (Sprite.animation sprite) (Sprite.size sprite)
      (Sprite.velocityX sprite) (Sprite.velocityY sprite) true.
Proof.
  intros newX newY Hanim Hx0 Hxw Hy0 Hyh.
  assert (Hclamp : forall v limit,
             (0 <? v)%float = true -> (v <? limit)%float = true ->
             JS.max 0 (JS.min v limit) = v).
  { intros v limit H0 Hl.
    destruct (NumberFacts.lt_not_nan _ _ Hl) as [Hv Hlim].
    unfold JS.min. rewrite Hv, Hlim, Hl. cbn [orb].
    unfold JS.max. rewrite Hv. cbn [orb].
    change (is_nan 0) with false. cbn match.
    rewrite (FloatFacts.le_not_gt _ _ (FloatFacts.lt_le _ _ H0)).
    now rewrite H0. }
  unfold stepSprite. rewrite Hanim. cbn [negb]. fold newX newY.
  rewrite (Hclamp newX _ Hx0 Hxw), (Hclamp newY _ Hy0 Hyh).
  rewrite (NumberFacts.lt_not_ge _ _ Hx0), (NumberFacts.lt_not_ge _ _ Hxw).
  rewrite (NumberFacts.lt_not_ge _ _ Hy0), (NumberFacts.lt_not_ge _ _ Hyh).
  reflexivity.
Qed.

Lemma stepSprite_free_flight_witness :
  stepSprite None 0.5 (Scenario.sprite "s" 300 200 100 (-50) true)
  = Scenario.sprite "s" 350 175 100 (-50) true.
Proof.
  apply (stepSprite_free_flight None 0.5
           (Scenario.sprite "s" 300 200 100 (-50) true));
    reflexivity.
Defined.

(** X6: on a stage of non-negative width and height and for a finite time
    step, the stepper on its own keeps the sprites in the stage: if every
    sprite has finite position and velocity and lies in the stage, every
    sprite of the stepper's output lies in the stage, however fast it
    moves. *)
Theorem stepper_keeps_stage (stageRef : option Element)
  (deltaTime : JS.number) (prevSprites : list Sprite.t) :
  JS.le 0 (stageWidthOf stageRef) ->
  JS.le 0 (stageHeightOf stageRef) ->
  is_finite deltaTime = true ->
  Forall finiteMotion prevSprites ->
  Forall (fun s => inStage stageRef s = true) prevSprites ->
  Forall (fun s => inStage stageRef s = true)
    (map (stepSprite stageRef deltaTime) prevSprites).
Proof.
  intros Hw Hh Hdt Hfin Hin. apply Forall_map.
  rewrite Forall_forall in *. intros s Hs.
  destruct (Sprite.isAnimating s) eqn:Hanim.
  - destruct (Hfin s Hs) as (Hx & Hy & Hvx & Hvy).
    apply stepSprite_in_stage; try assumption;
      now apply NumberFacts.step_not_nan.
  - unfold stepSprite. rewrite Hanim. now apply Hin.
Qed.

Lemma stepper_keeps_stage_witness :
  Forall (fun s => inStage None s = true)
    (map (stepSprite None 10)
       [Scenario.sprite "fast" 300 300 1000 (-1000) true;
        Scenario.sprite "still" 10 590 0 0 false]).
Proof.
  apply (stepper_keeps_stage None 10); try reflexivity;
    repeat constructor.
Defined.

(** X7: the overlap test does not depend on the order of its two
    arguments, on binary64 numbers, NaN and infinities included. *)
Theorem checkCollision_sym (sprite1 sprite2 : Sprite.t) :
  checkCollision sprite1 sprite2 = checkCollision sprite2 sprite1.
Proof.
  unfold checkCollision.
  rewrite (NumberFacts.abs_sub_swap (Sprite.x sprite1) (Sprite.x sprite2)).
  rewrite (NumberFacts.abs_sub_swap (Sprite.y sprite1) (Sprite.y sprite2)).
  now rewrite (NumberFacts.add_comm (48 * Sprite.size sprite1)
                 (48 * Sprite.size sprite2)).
Qed.

Lemma checkCollision_nan_x (s1 s2 : Sprite.t) :
  is_nan (Sprite.x s1) = true \/ is_nan (Sprite.x s2) = true ->
  checkCollision s1 s2 = false.
Proof.
  intros H. unfold checkCollision.
  rewrite NumberFacts.nan_not_lt; [reflexivity|].
  apply NumberFacts.abs_nan.
  destruct H;
    [now apply NumberFacts.sub_nan_l | now apply NumberFacts.sub_nan_r].
Qed.

Lemma stepSprite_nan_x (stageRef : option Element) (deltaTime : JS.number)
  (s : Sprite.t) :
  is_nan (Sprite.x s) = true ->
  is_nan (Sprite.x (stepSprite stageRef deltaTime s)) = true.
Proof.
  intros H. unfold stepSprite.
  destruct (Sprite.isAnimating s); cbn [negb Sprite.x]; [|exact H].
  rewrite NumberFacts.max_nan_r; [reflexivity|].
  rewrite NumberFacts.min_nan_l; [reflexivity|].
  now apply NumberFacts.add_nan_l.
Qed.

Lemma nth_error_setAt_other {A : Type} (l : list A) (i k : nat) (x : A) :
  i <> k -> nth_error (setAt l i x) k = nth_error l k.
Proof.
  revert i k; induction l as [|y l IH]; intros [|i] [|k] H; cbn;
    try reflexivity; try congruence.
  apply IH. congruence.
Qed.

Lemma resolvePair_lost (blocks : ActionBlocks) (i j k : nat)
  (st : list Sprite.t * list Effect) :
  lostAt k (fst st) -> lostAt k (fst (resolvePair blocks i j st)).
Proof.
  destruct st as [l effects]. cbn [fst]. intros (s & Hk & Hnan).
  unfold resolvePair.
  destruct (nth_error l i) as [si|] eqn:Hi; [|now exists s].
  destruct (nth_error l j) as [sj|] eqn:Hj; [|now exists s].
  destruct (Nat.eq_dec i k) as [-> | Hik].
  { rewrite checkCollision_nan_x; [now exists s|].
    left. congruence. }
  destruct (Nat.eq_dec j k) as [-> | Hjk].
  { rewrite checkCollision_nan_x; [now exists s|].
    right. congruence. }
  destruct (checkCollision si sj); [|now exists s].
  match goal with
  | |- context [if ?c then _ else _] => destruct c
  end; cbn [fst]; exists s;
    rewrite !nth_error_setAt_other by assumption; now split.
Qed.

Lemma handleCollisions_lost (blocks : ActionBlocks) (k : nat)
  (l : list Sprite.t) :
  lostAt k l -> lostAt k (fst (handleCollisions blocks l)).
Proof.
  unfold handleCollisions.
  generalize (seq 0 (List.length l)) as rows.
  change l with (fst (l, @nil Effect)) at 1.
  generalize (l, @nil Effect) as st.
  intros st rows; revert st.
  induction rows as [|i rows IH]; intros st H; cbn [fold_left];
    [exact H|].
  apply IH. unfold innerLoop.
  generalize (seq (S i) (List.length (fst st) - S i)) as cols.
  intros cols; revert st H.
  induction cols as [|j cols IHc]; intros st H; cbn [fold_left];
    [exact H|].
  apply IHc. now apply resolvePair_lost.
Qed.

(** X8: a NaN coordinate is never repaired by the frame loop: a sprite
    whose x is NaN before a tick is at the same index with x still NaN
    after it (it no longer passes the overlap test with anything, and the
    stepper's clamp returns NaN for it). *)
Theorem nan_position_is_permanent (blocks : ActionBlocks)
  (stageRef : option Element) (deltaTime : JS.number) (k : nat)
  (prevSprites : list Sprite.t) (s : Sprite.t) :
  nth_error prevSprites k = Some s ->
  is_nan (Sprite.x s) = true ->
  exists s',
    nth_error (fst (animateTick blocks stageRef deltaTime prevSprites)) k
    = Some s'
    /\ is_nan (Sprite.x s') = true.
Proof.
  intros Hk Hnan. unfold animateTick. apply handleCollisions_lost.
  exists (stepSprite stageRef deltaTime s). split.
  - now rewrite nth_error_map, Hk.
  - now apply stepSprite_nan_x.
Qed.

Lemma nan_position_is_permanent_witness :
  let collided :=
    fst (handleCollisions Scenario.pairStore
           (Scenario.pairAt 100 100 100 100)) in
  exists s',
    nth_error (fst (animateTick Scenario.pairStore None 0.016 collided)) 0
    = Some s'
    /\ is_nan (Sprite.x s') = true.
Proof.
  cbv zeta.
  eapply (nan_position_is_permanent Scenario.pairStore None 0.016 0);
    reflexivity.
Defined.

(** * More of the sequencer: what Play schedules, what timers touch *)

Lemma scheduleActions_besides (spriteId : string)
  (actions : list ActionBlock.t) :
  forall (index : nat) (w : World),
    besidesTimers (scheduleActions spriteId actions index w)
    = besidesTimers w.
Proof.
  induction actions as [|action rest IH]; intros index w; cbn;
    [reflexivity|].
  now rewrite IH.
Qed.

Lemma scheduleEntries_besides (entries : ActionBlocks) :
  forall w : World,
    besidesTimers
      (fold_left
         (fun acc entry => scheduleActions (fst entry) (snd entry) 0 acc)
         entries w)
    = besidesTimers w.
Proof.
  induction entries as [|[spriteId actions] entries IH]; intros w; cbn;
    [reflexivity|].
  now rewrite IH, scheduleActions_besides.
Qed.

Lemma scheduleActions_frame (spriteId : string)
  (actions : list ActionBlock.t) :
  forall (index : nat) (w : World),
    frameRequested (scheduleActions spriteId actions index w)
    = frameRequested w.
Proof.
  induction actions as [|action rest IH]; intros index w; cbn;
    [reflexivity|].
  now rewrite IH.
Qed.

Lemma scheduleEntries_frame (entries : ActionBlocks) :
  forall w : World,
    frameRequested
      (fold_left
         (fun acc entry => scheduleActions (fst entry) (snd entry) 0 acc)
         entries w)
    = frameRequested w.
Proof.
  induction entries as [|[spriteId actions] entries IH]; intros w; cbn;
    [reflexivity|].
  now rewrite IH, scheduleActions_frame.
Qed.

Lemma runEffects_frame (w : World) :
  frameRequested (runEffects w) = isPlaying w.
Proof.
  unfold runEffects, scheduleAll. cbn [isPlaying setFrame].
  destruct (isPlaying w); [|reflexivity].
  now rewrite scheduleEntries_frame.
Qed.

Lemma runEffects_besides (w : World) :
  besidesTimers (runEffects w) = besidesTimers w.
Proof.
  unfold runEffects, scheduleAll. cbn [isPlaying setFrame].
  destruct (isPlaying w); [|reflexivity].
  now rewrite scheduleEntries_besides.
Qed.

Lemma length_enqueue (t : Timer) (queue : list Timer) :
  List.length (enqueue t queue) = S (List.length queue).
Proof.
  induction queue as [|t0 queue IH]; cbn; [reflexivity|].
  destruct (fst t0 <=? fst t)%Z; cbn; now rewrite ?IH.
Qed.

Lemma scheduleActions_count (spriteId : string)
  (actions : list ActionBlock.t) :
  forall (index : nat) (w : World),
    List.length (timers (scheduleActions spriteId actions index w))
    = (List.length (timers w) + List.length actions)%nat.
Proof.
  induction actions as [|action rest IH]; intros index w; cbn;
    [lia|].
  rewrite IH. cbn. rewrite length_enqueue. lia.
Qed.

Lemma scheduleEntries_count (entries : ActionBlocks) :
  forall w : World,
    List.length
      (timers
         (fold_left
            (fun acc entry => scheduleActions (fst entry) (snd entry) 0 acc)
            entries w))
    = (List.length (timers w) + queuedActions entries)%nat.
Proof.
  induction entries as [|[spriteId actions] entries IH]; intros w.
  - cbn. lia.
  - cbn [fold_left fst snd]. rewrite IH, scheduleActions_count.
    change (queuedActions ((spriteId, actions) :: entries))
      with (List.length actions + queuedActions entries)%nat.
    lia.
Qed.

Lemma runEffects_count (w : World) :
  List.length (timers (runEffects w))
  = (List.length (timers w)
     + if isPlaying w then queuedActions (actionBlocks w) else 0)%nat.
Proof.
  unfold runEffects, scheduleAll. cbn [isPlaying setFrame].
  destruct (isPlaying w); [|cbn; lia].
  now rewrite scheduleEntries_count.
Qed.

(** X9: pressing Play on a stopped world starts the frame loop and adds
    exactly one timer per queued block, over all sprites, to the timers
    already pending; none is removed, so pressing Stop and Play again
    queues every block a second time. *)
Theorem play_schedules_every_block (w : World) :
  isPlaying w = false ->
  isPlaying (togglePlay w) = true
  /\ frameRequested (togglePlay w) = true
  /\ List.length (timers (togglePlay w))
     = (List.length (timers w) + queuedActions (actionBlocks w))%nat
  /\ List.length (timers (togglePlay (togglePlay (togglePlay w))))
     = (List.length (timers w) + 2 * queuedActions (actionBlocks w))%nat.
Proof.
  intros Hstop.
  assert (Hstep : forall v : World,
             List.length (timers (togglePlay v))
             = (List.length (timers v)
                + if isPlaying v then 0
                  else queuedActions (actionBlocks v))%nat
             /\ isPlaying (togglePlay v) = negb (isPlaying v)
             /\ actionBlocks (togglePlay v) = actionBlocks v).
  { intros v. unfold togglePlay.
    match goal with |- context [runEffects ?u] => set (v' := u) end.
    pose proof (runEffects_besides v') as Hb.
    pose proof (runEffects_count v') as Hc.
    unfold besidesTimers in Hb. injection Hb as _ _ Hplay Hblocks _ _ _.
    rewrite Hc, Hplay, Hblocks. subst v'. cbn.
    now destruct (isPlaying v). }
  destruct (Hstep w) as (H1 & P1 & B1).
  rewrite Hstop in H1, P1. cbn [negb] in P1.
  destruct (Hstep (togglePlay w)) as (H2 & P2 & B2).
  rewrite P1 in H2, P2. cbn [negb] in P2.
  destruct (Hstep (togglePlay (togglePlay w))) as (H3 & _ & _).
  rewrite P2, B2, B1 in H3.
  repeat split.
  - exact P1.
  - unfold togglePlay. rewrite runEffects_frame. cbn. now rewrite Hstop.
  - exact H1.
  - lia.
Qed.

Lemma play_schedules_every_block_witness :
  List.length (timers (togglePlay (Scenario.rotateTwice 0 0 0))) = 2%nat.
Proof.
  exact (proj1 (proj2 (proj2
           (play_schedules_every_block (Scenario.rotateTwice 0 0 0)
              eq_refl)))).
Defined.

Lemma now_scheduleActions (spriteId : string) (actions : list ActionBlock.t)
  (index : nat) (w : World) :
  now (scheduleActions spriteId actions index w) = now w.
Proof.
  pose proof (scheduleActions_besides spriteId actions index w) as H.
  unfold besidesTimers in H. now injection H.
Qed.

Lemma scheduleActions_keeps (spriteId : string)
  (actions : list ActionBlock.t) (x : Timer) :
  forall (index : nat) (w : World),
    In x (timers w) ->
    In x (timers (scheduleActions spriteId actions index w)).
Proof.
  induction actions as [|action rest IH]; intros index w H; cbn;
    [exact H|].
  apply IH. cbn. apply enqueue_In. now right.
Qed.

Lemma scheduleActions_adds (spriteId : string)
  (actions : list ActionBlock.t) :
  forall (index i : nat) (w : World) (action : ActionBlock.t),
    nth_error actions i = Some action ->
    In ((now w + Z.of_nat (index + i) * 1000)%Z,
        RunAction spriteId action (Nat.eqb (S i) (List.length actions)))
      (timers (scheduleActions spriteId actions index w)).
Proof.
  induction actions as [|a rest IH]; intros index i w action Hi.
  - destruct i; discriminate.
  - destruct i as [|i]; cbn [nth_error] in Hi.
    + injection Hi as ->. cbn [scheduleActions].
      apply scheduleActions_keeps. cbn [timers setTimeout].
      apply enqueue_In. left. rewrite Nat.add_0_r.
      now destruct rest.
    + cbn [scheduleActions].
      specialize (IH (S index) i
                    (setTimeout
                       (RunAction spriteId a
                          match rest with [] => true | _ :: _ => false end)
                       (Z.of_nat index * 1000) w) action Hi).
      cbn [now setTimeout] in IH.
      replace (index + S i)%nat with (S index + i)%nat by lia.
      exact IH.
Qed.

(** X10: the sequencer's schedule, for any store: when Play is pressed on
    a stopped world, the block at 0-based index [i] of any sprite's queue
    gets a timer due [i] seconds after that moment, marked as last exactly
    when it is the last block of its queue. *)
Theorem play_schedule (w : World) (spriteId : string)
  (actions : list ActionBlock.t) (i : nat) (action : ActionBlock.t) :
  isPlaying w = false ->
  In (spriteId, actions) (actionBlocks w) ->
  nth_error actions i = Some action ->
  In ((now w + Z.of_nat i * 1000)%Z,
      RunAction spriteId action (Nat.eqb (S i) (List.length actions)))
    (timers (togglePlay w)).
Proof.
  intros Hstop Hentry Hi.
  unfold togglePlay, runEffects, scheduleAll. cbn. rewrite Hstop. cbn.
  match goal with
  | |- In _ (timers (fold_left _ _ ?w0)) =>
      assert (Hnow : now w0 = now w) by reflexivity; generalize dependent w0
  end.
  induction (actionBlocks w) as [|[k q] entries IH]; [contradiction|].
  intros w0 Hnow. cbn [fold_left fst snd].
  destruct Hentry as [[= -> ->] | Hentry].
  - assert (Hin : In ((now w + Z.of_nat i * 1000)%Z,
                      RunAction spriteId action
                        (Nat.eqb (S i) (List.length actions)))
                    (timers (scheduleActions spriteId actions 0 w0))).
    { rewrite <- Hnow. apply (scheduleActions_adds spriteId actions 0 i).
      exact Hi. }
    revert Hin. generalize (scheduleActions spriteId actions 0 w0) as w1.
    clear. induction entries as [|[k q] entries IH]; intros w1 H; cbn;
      [exact H|].
    apply IH. now apply scheduleActions_keeps.
  - apply IH; [exact Hentry|].
    now rewrite now_scheduleActions.
Qed.

Lemma play_schedule_witness :
  In (1000%Z, RunAction "sprite-1" (Scenario.block "r2" turn 90) true)
    (timers (togglePlay (Scenario.rotateTwice 0 0 0))).
Proof.
  apply (play_schedule (Scenario.rotateTwice 0 0 0) "sprite-1"
           [Scenario.block "r1" turn 90; Scenario.block "r2" turn 90] 1).
  - reflexivity.
  - left. reflexivity.
  - reflexivity.
Defined.

(** * More of the timers: which sprites a callback touches *)

Lemma applyAction_identity (rt : Runtime) (action : ActionBlock.t)
  (draws0 : nat) (sprite : Sprite.t) :
  identity (fst (applyAction rt action draws0 sprite)) = identity sprite
  /\ Sprite.isAnimating (fst (applyAction rt action draws0 sprite)) = true.
Proof.
  unfold applyAction. now destruct (ActionBlock.type action).
Qed.

Lemma runAction_identity (rt : Runtime) (spriteId : string)
  (action : ActionBlock.t) (prev : list Sprite.t) :
  forall draws0 : nat,
    map identity (fst (runAction rt spriteId action draws0 prev))
    = map identity prev.
Proof.
  induction prev as [|s prev IH]; intros draws0; cbn [runAction];
    [reflexivity|].
  destruct (String.eqb (Sprite.id s) spriteId).
  - pose proof (applyAction_identity rt action draws0 s) as [Hs _].
    destruct (applyAction rt action draws0 s) as [s' d'].
    specialize (IH d').
    destruct (runAction rt spriteId action d' prev) as [rest' d''].
    cbn [fst map] in *. now rewrite Hs, IH.
  - specialize (IH draws0).
    destruct (runAction rt spriteId action draws0 prev) as [rest' d'].
    cbn [fst map] in *. now rewrite IH.
Qed.

(** X11: no timer callback (queued action, post-sequence stop, message
    clear) and no stepper tick adds, removes or reorders sprites, or changes
    a sprite's id, type, thinking text or animation list: a sprite keeps its
    id for as long as it is in the collection. *)
Theorem identity_is_kept (rt : Runtime) (cb : Callback) (w : World)
  (blocks : ActionBlocks) (deltaTime : JS.number) :
  map identity (sprites (fire rt cb w)) = map identity (sprites w)
  /\ map identity (sprites (frame w)) = map identity (sprites w)
  /\ map identity (fst (animateTick blocks (stageRef w) deltaTime (sprites w)))
     = map identity (sprites w).
Proof.
  assert (Htick : forall b dt,
             map identity (fst (animateTick b (stageRef w) dt (sprites w)))
             = map identity (sprites w)).
  { intros b dt.
    pose proof (tick_keeps b (stageRef w) dt (sprites w)) as H.
    apply (f_equal (map (fun u : string * SpriteType * JS.number * JS.number
                                 * bool * string * list Animation.t =>
                           let '(i, t, _, _, _, th, an) := u in
                           (i, t, th, an)))) in H.
    rewrite !map_map in H. exact H. }
  split; [|split].
  - destruct cb as [spriteId action last | spriteId | id1 id2]; cbn.
    + pose proof (runAction_identity rt spriteId action (sprites w) (draws w))
        as H.
      destruct (runAction rt spriteId action (draws w) (sprites w))
        as [sprites' d'].
      now destruct last.
    + unfold stopSprite. rewrite map_map. apply map_ext. intros s.
      now destruct (String.eqb (Sprite.id s) spriteId).
    + unfold clearSaying. rewrite map_map. apply map_ext. intros s.
      now destruct (String.eqb (Sprite.id s) id1
                    || String.eqb (Sprite.id s) id2).
  - unfold frame. destruct (frameRequested w); [|reflexivity].
    specialize (Htick (actionBlocks w)
                  (elapsedSeconds (now w) (lastTime w))).
    destruct (animateTick (actionBlocks w) (stageRef w)
                (elapsedSeconds (now w) (lastTime w)) (sprites w))
      as [sprites' effects].
    cbn [fst] in Htick.
    assert (Hfold : forall w1,
               sprites (fold_left applyEffect effects w1) = sprites w1).
    { induction effects as [|e effects IH]; intros w1; cbn; [reflexivity|].
      rewrite IH. now destruct e. }
    assert (Hrun : forall w1, sprites (runEffects w1) = sprites w1).
    { intros w1. pose proof (runEffects_besides w1) as H.
      unfold besidesTimers in H. now injection H. }
    destruct (existsb changesBlocks effects); rewrite ?Hrun, Hfold;
      exact Htick.
  - apply Htick.
Qed.

Lemma runAction_absent (rt : Runtime) (spriteId : string)
  (action : ActionBlock.t) (draws0 : nat) (prev : list Sprite.t) :
  Forall (fun s => Sprite.id s <> spriteId) prev ->
  runAction rt spriteId action draws0 prev = (prev, draws0).
Proof.
  induction 1 as [|s prev Hs _ IH]; cbn; [reflexivity|].
  apply String.eqb_neq in Hs. now rewrite Hs, IH.
Qed.

Lemma deleteSprite_absent (id : string) (w : World) :
  Forall (fun s => Sprite.id s <> id) (sprites (deleteSprite id w)).
Proof.
  apply Forall_forall. intros s Hs. cbn in Hs.
  apply filter_In in Hs. destruct Hs as [_ H].
  now apply negb_true_iff, String.eqb_neq in H.
Qed.

(** X12: timers that outlive their sprite are harmless: after a sprite is
    deleted, its pending action timers and its stop timer change no sprite
    when they run (and draw no random number); a last action still starts
    its stop timer. *)
Theorem timers_of_deleted_sprite (rt : Runtime) (id : string)
  (action : ActionBlock.t) (last : bool) (w : World) :
  let w' := deleteSprite id w in
  sprites (fire rt (RunAction id action last) w') = sprites w'
  /\ draws (fire rt (RunAction id action last) w') = draws w'
  /\ sprites (fire rt (StopSprite id) w') = sprites w'
  /\ List.length (timers (fire rt (RunAction id action last) w'))
     = (List.length (timers w') + if last then 1 else 0)%nat.
Proof.
  cbv zeta. pose proof (deleteSprite_absent id w) as Habs.
  assert (Hmap : forall f : Sprite.t -> Sprite.t,
             map (fun s => if String.eqb (Sprite.id s) id then f s else s)
               (sprites (deleteSprite id w))
             = sprites (deleteSprite id w)).
  { intros f. induction Habs as [|s l Hs _ IH]; cbn [map]; [reflexivity|].
    apply String.eqb_neq in Hs. now rewrite Hs, IH. }
  cbn [fire].
  rewrite (runAction_absent rt id action _ _ Habs).
  repeat split.
  - now destruct last.
  - now destruct last.
  - cbn [setSprites sprites]. unfold stopSprite. apply Hmap.
  - destruct last; cbn; [rewrite length_enqueue|]; lia.
Qed.

(** X13: once the stop timer of a sprite has run, the stepper leaves that
    sprite where it is: every sprite with that id has zero velocity, is not
    animating, and is returned unchanged by the stepper, whatever the stage
    and the time step. *)
Theorem stopped_sprite_rests (stageRef : option Element)
  (deltaTime : JS.number) (spriteId : string) (prev : list Sprite.t)
  (s : Sprite.t) :
  In s (stopSprite spriteId prev) ->
  Sprite.id s = spriteId ->
  velocity s = (0, 0)%float
  /\ Sprite.isAnimating s = false
  /\ stepSprite stageRef deltaTime s = s.
Proof.
  unfold stopSprite. intros Hin Hid. apply in_map_iff in Hin.
  destruct Hin as (s0 & Hs & _).
  destruct (String.eqb (Sprite.id s0) spriteId) eqn:E.
  - subst s. repeat split.
  - subst s. apply String.eqb_neq in E. contradiction.
Qed.

Lemma stopped_sprite_rests_witness :
  stepSprite None 0.016
    (Sprite.mk "A" cat 100 100 0 "" "" [] 1 0 0 false)
  = Sprite.mk "A" cat 100 100 0 "" "" [] 1 0 0 false.
Proof.
  refine (proj2 (proj2
            (stopped_sprite_rests None 0.016 "A"
               [Scenario.sprite "A" 100 100 50 0 true]
               (Sprite.mk "A" cat 100 100 0 "" "" [] 1 0 0 false) _ _))).
  - left. reflexivity.
  - reflexivity.
Defined.

(** X14: every block, whatever its type, marks the sprite as animating;
    only a randomize block moves a sprite directly: every other block, a
    goto block included, leaves the position where it is and draws no
    random number, while a randomize block stores two fresh draws, scaled
    to [100 + 400 * r]. *)
Theorem only_random_moves (rt : Runtime) (action : ActionBlock.t)
  (draws0 : nat) (sprite : Sprite.t) :
  Sprite.isAnimating (fst (applyAction rt action draws0 sprite)) = true
  /\ (ActionBlock.type action <> random ->
      position (fst (applyAction rt action draws0 sprite)) = position sprite
      /\ snd (applyAction rt action draws0 sprite) = draws0)
  /\ (ActionBlock.type action = random ->
      position (fst (applyAction rt action draws0 sprite))
      = ((Math_random rt draws0 * 400 + 100)%float,
         (Math_random rt (S draws0) * 400 + 100)%float)
      /\ snd (applyAction rt action draws0 sprite) = S (S draws0)).
Proof.
  unfold applyAction.
  destruct (ActionBlock.type action); (split; [reflexivity|]);
    split; intros H; try discriminate; try contradiction;
    split; reflexivity.
Qed.

Lemma only_random_moves_witness :
  position
    (fst (applyAction Scenario.host (Scenario.block "jump" goto 0) 0
            (Scenario.sprite "s" 300 200 0 0 false)))
  = (300, 200)%float.
Proof.
  refine (proj1 (proj1 (proj2
            (only_random_moves Scenario.host (Scenario.block "jump" goto 0) 0
               (Scenario.sprite "s" 300 200 0 0 false))) _)).
  discriminate.
Defined.

(** * Authoring: adding and deleting sprites, editing queues *)

Lemma decimal_inj (n m : N) : decimal n = decimal m -> n = m.
Proof.
  unfold decimal. intros H. apply Unsigned.to_uint_inj.
  apply (f_equal NilEmpty.uint_of_string) in H.
  rewrite !NilEmpty.usu in H. now injection H.
Qed.

(** X15: sprite ids and block ids are as unique as the clock: two ids
    made at different [Date.now()] values differ, two made at the same
    value are equal. *)
Theorem ids_follow_the_clock (t1 t2 : N) :
  (spriteIdAt t1 = spriteIdAt t2 <-> t1 = t2)
  /\ (actionIdAt t1 = actionIdAt t2 <-> t1 = t2).
Proof.
  unfold spriteIdAt, actionIdAt. split; split;
    try (intros ->; reflexivity);
    cbn; intros [= H]; now apply decimal_inj.
Qed.

Lemma filter_app_fresh {A : Type} (keep : A -> bool) (l : list A) (x : A) :
  Forall (fun y => keep y = true) l -> keep x = false ->
  filter keep (l ++ [x]) = l.
Proof.
  intros Hl Hx. rewrite filter_app. cbn. rewrite Hx, app_nil_r.
  induction Hl as [|y l Hy _ IH]; cbn; [reflexivity|].
  now rewrite Hy, IH.
Qed.

(** X16: adding a sprite appends it (selected, at rest, unit scale, facing
    up) after the sprites already there, which are unchanged; deleting it
    again gives back the sprite collection as it was, provided no older
    sprite has the same id, but the selection stays cleared. *)
Theorem addSprite_then_delete (rt : Runtime) (dateNow : N)
  (type : SpriteType) (w : World) :
  Forall (fun s => Sprite.id s <> spriteIdAt dateNow) (sprites w) ->
  let added := addSprite rt dateNow type w in
  (exists s,
      sprites added = sprites w ++ [s]
      /\ Sprite.id s = spriteIdAt dateNow
      /\ selectedSprite added = Some (Sprite.id s)
      /\ velocity s = (0, 0)%float /\ Sprite.isAnimating s = false
      /\ Sprite.size s = 1%float /\ Sprite.direction s = 0%float)
  /\ sprites (deleteSprite (spriteIdAt dateNow) added) = sprites w
  /\ selectedSprite (deleteSprite (spriteIdAt dateNow) added) = None
  /\ actionBlocks (deleteSprite (spriteIdAt dateNow) added) = actionBlocks w.
Proof.
  intros Hfresh added. split; [|split; [|split]].
  - eexists. split; [reflexivity|]. repeat split.
  - subst added. cbn [deleteSprite addSprite sprites Sprite.id].
    apply filter_app_fresh.
    + eapply Forall_impl; [|exact Hfresh]. cbn. intros s Hs.
      now apply negb_true_iff, String.eqb_neq.
    + cbn [Sprite.id]. now rewrite String.eqb_refl.
  - subst added. cbn [deleteSprite addSprite selectedSprite Sprite.id].
    now rewrite String.eqb_refl.
  - reflexivity.
Qed.

Lemma addSprite_then_delete_witness :
  sprites
    (deleteSprite (spriteIdAt 1700000000000)
       (addSprite Scenario.host 1700000000000 dog Scenario.oneSprite))
  = sprites Scenario.oneSprite.
Proof.
  refine (proj1 (proj2
            (addSprite_then_delete Scenario.host 1700000000000 dog
               Scenario.oneSprite _))).
  repeat constructor. discriminate.
Defined.

(** X17: two sprites added within the same millisecond share their id, so
    deleting "one" of them deletes both: the collection is then what
    deleting that id from the original collection gives. *)
Theorem same_millisecond_sprites (rt : Runtime) (dateNow : N)
  (type1 type2 : SpriteType) (w : World) :
  let twice := addSprite rt dateNow type2 (addSprite rt dateNow type1 w) in
  List.length (sprites twice) = (2 + List.length (sprites w))%nat
  /\ sprites (deleteSprite (spriteIdAt dateNow) twice)
     = sprites (deleteSprite (spriteIdAt dateNow) w).
Proof.
  cbv zeta. split.
  - cbn. rewrite !length_app. cbn. lia.
  - cbn [deleteSprite addSprite sprites].
    rewrite !filter_app. cbn [filter Sprite.id].
    rewrite String.eqb_refl. cbn. now rewrite !app_nil_r.
Qed.

Lemma blocks_runEffects (w : World) :
  actionBlocks (runEffects w) = actionBlocks w
  /\ sprites (runEffects w) = sprites w
  /\ isPlaying (runEffects w) = isPlaying w.
Proof.
  pose proof (runEffects_besides w) as H. unfold besidesTimers in H.
  injection H as Hs _ Hp Hb _ _ _. now rewrite Hs, Hp, Hb.
Qed.

(** X18: dropping a block on a sprite appends it, under a fresh id made
    from the clock, at the end of that sprite's queue (which starts empty if
    the sprite had none); the queues of all other sprites and the sprites
    themselves are unchanged, and a payload that does not parse changes
    nothing at all. *)
Theorem handleActionDrop_appends (dateNow : N) (data : ActionBlock.t)
  (spriteId : string) (w : World) :
  let dropped := handleActionDrop dateNow (Some data) spriteId w in
  (exists newAction,
      lookupBlocks (actionBlocks dropped) spriteId
      = Some (blocksOrEmpty (actionBlocks w) spriteId ++ [newAction])
      /\ ActionBlock.id newAction = actionIdAt dateNow
      /\ ActionBlock.type newAction = ActionBlock.type data
      /\ ActionBlock.value newAction = ActionBlock.value data
      /\ ActionBlock.label newAction = ActionBlock.label data)
  /\ (forall other, other <> spriteId ->
        lookupBlocks (actionBlocks dropped) other
        = lookupBlocks (actionBlocks w) other)
  /\ sprites dropped = sprites w
  /\ handleActionDrop dateNow None spriteId w = w.
Proof.
  cbv zeta. unfold handleActionDrop, setActionBlocks.
  destruct (blocks_runEffects
              {| sprites := sprites w; selectedSprite := selectedSprite w;
                 isPlaying := isPlaying w;
                 actionBlocks :=
                   spreadBlocks (actionBlocks w)
                     [(spriteId,
                       blocksOrEmpty (actionBlocks w) spriteId
                       ++ [ActionBlock.mk (actionIdAt dateNow)
                             (ActionBlock.type data) (ActionBlock.value data)
                             (ActionBlock.duration data) (ActionBlock.x data)
                             (ActionBlock.y data) (ActionBlock.repeat data)
                             (ActionBlock.label data)])];
                 frameRequested := frameRequested w; lastTime := lastTime w;
                 timers := timers w; now := now w; draws := draws w;
                 stageRef := stageRef w |}) as (Hb & Hs & _).
  rewrite Hb, Hs. cbn [actionBlocks sprites spreadBlocks fold_left fst snd].
  split; [|split; [|split]]; try reflexivity.
  - eexists. split.
    + rewrite lookup_setBlocks, String.eqb_refl. reflexivity.
    + repeat split.
  - intros other Hother. rewrite lookup_setBlocks.
    apply not_eq_sym, String.eqb_neq in Hother. now rewrite Hother.
Qed.

Lemma handleActionDrop_blocks (dateNow : N) (data : ActionBlock.t)
  (spriteId : string) (w : World) :
  actionBlocks (handleActionDrop dateNow (Some data) spriteId w)
  = setBlocks (actionBlocks w) spriteId
      (blocksOrEmpty (actionBlocks w) spriteId
       ++ [ActionBlock.mk (actionIdAt dateNow)
             (ActionBlock.type data) (ActionBlock.value data)
             (ActionBlock.duration data) (ActionBlock.x data)
             (ActionBlock.y data) (ActionBlock.repeat data)
             (ActionBlock.label data)]).
Proof.
  unfold handleActionDrop, setActionBlocks.
  match goal with
  | |- context [runEffects ?u] => destruct (blocks_runEffects u) as (Hb & _)
  end.
  now rewrite Hb.
Qed.

(** X19: removing a block by id leaves the sprite's queue without any
    block of that id and with the other blocks in their order; the other
    sprites' queues and the sprites are unchanged; on a sprite that has no
    queue in the store the update throws. *)
Theorem removeAction_removes (spriteId actionId : string) (w : World) :
  match lookupBlocks (actionBlocks w) spriteId with
  | Some queue =>
      exists w',
        removeAction spriteId actionId w = Some w'
        /\ lookupBlocks (actionBlocks w') spriteId
           = Some (filter
                     (fun a => negb (String.eqb (ActionBlock.id a) actionId))
                     queue)
        /\ Forall (fun a => ActionBlock.id a <> actionId)
             (blocksOrEmpty (actionBlocks w') spriteId)
        /\ (forall other, other <> spriteId ->
              lookupBlocks (actionBlocks w') other
              = lookupBlocks (actionBlocks w) other)
        /\ sprites w' = sprites w
  | None => removeAction spriteId actionId w = None
  end.
Proof.
  unfold removeAction.
  destruct (lookupBlocks (actionBlocks w) spriteId) as [queue|] eqn:Hq;
    [|reflexivity].
  eexists. split; [reflexivity|]. unfold setActionBlocks.
  match goal with
  | |- context [runEffects ?u] =>
      destruct (blocks_runEffects u) as (Hb & Hs & _)
  end.
  rewrite Hb, Hs. cbn [actionBlocks sprites spreadBlocks fold_left fst snd].
  unfold blocksOrEmpty. rewrite lookup_setBlocks, String.eqb_refl.
  split; [reflexivity | split; [|split; [|reflexivity]]].
  - apply Forall_forall. intros a Ha. apply filter_In in Ha.
    destruct Ha as [_ Ha]. now apply negb_true_iff, String.eqb_neq in Ha.
  - intros other Hother. rewrite lookup_setBlocks.
    apply not_eq_sym, String.eqb_neq in Hother. now rewrite Hother.
Qed.

(** X20: dropping a block and then removing it by its id gives the sprite
    its former queue back (an empty queue if it had none), provided no
    older block of that queue has the same id, that is, was dropped in the
    same millisecond. *)
Theorem drop_then_remove (dateNow : N) (data : ActionBlock.t)
  (spriteId : string) (w : World) :
  Forall (fun a => ActionBlock.id a <> actionIdAt dateNow)
    (blocksOrEmpty (actionBlocks w) spriteId) ->
  exists w',
    removeAction spriteId (actionIdAt dateNow)
      (handleActionDrop dateNow (Some data) spriteId w) = Some w'
    /\ lookupBlocks (actionBlocks w') spriteId
       = Some (blocksOrEmpty (actionBlocks w) spriteId)
    /\ (forall other, other <> spriteId ->
          lookupBlocks (actionBlocks w') other
          = lookupBlocks (actionBlocks w) other).
Proof.
  intros Hfresh.
  pose proof (handleActionDrop_blocks dateNow data spriteId w) as Hd.
  set (dropped := handleActionDrop dateNow (Some data) spriteId w) in *.
  unfold removeAction.
  assert (Hl : lookupBlocks (actionBlocks dropped) spriteId
               = Some (blocksOrEmpty (actionBlocks w) spriteId
                       ++ [ActionBlock.mk (actionIdAt dateNow)
                             (ActionBlock.type data) (ActionBlock.value data)
                             (ActionBlock.duration data) (ActionBlock.x data)
                             (ActionBlock.y data) (ActionBlock.repeat data)
                             (ActionBlock.label data)]))
    by (rewrite Hd, lookup_setBlocks, String.eqb_refl; reflexivity).
  rewrite Hl. eexists. split; [reflexivity|]. unfold setActionBlocks.
  match goal with
  | |- context [runEffects ?u] => destruct (blocks_runEffects u) as (Hb & _)
  end.
  rewrite Hb. cbn [actionBlocks spreadBlocks fold_left fst snd]. split.
  - rewrite lookup_setBlocks, String.eqb_refl. f_equal.
    apply filter_app_fresh.
    + eapply Forall_impl; [|exact Hfresh]. cbn. intros a Ha.
      now apply negb_true_iff, String.eqb_neq.
    + cbn. now rewrite String.eqb_refl.
  - intros other Hother. rewrite lookup_setBlocks, Hd, lookup_setBlocks.
    apply not_eq_sym, String.eqb_neq in Hother. now rewrite Hother.
Qed.

Lemma drop_then_remove_witness :
  exists w',
    removeAction "sprite-1" (actionIdAt 1700000000000)
      (handleActionDrop 1700000000000 (Some Scenario.b1) "sprite-1"
         Scenario.oneSprite) = Some w'
    /\ lookupBlocks (actionBlocks w') "sprite-1" = Some [Scenario.a1].
Proof.
  destruct (drop_then_remove 1700000000000 Scenario.b1 "sprite-1"
              Scenario.oneSprite) as (w' & Hr & Hl & _).
  - repeat constructor. discriminate.
  - exists w'. split; [exact Hr | exact Hl].
Defined.

Lemma queuedActions_setBlocks (blocks : ActionBlocks) (k : string)
  (q : list ActionBlock.t) :
  (queuedActions (setBlocks blocks k q)
   + List.length (blocksOrEmpty blocks k)
   = queuedActions blocks + List.length q)%nat.
Proof.
  induction blocks as [|[k0 q0] rest IH].
  - cbn. lia.
  - unfold blocksOrEmpty in *. cbn [setBlocks lookupBlocks].
    destruct (String.eqb k0 k).
    + change (queuedActions ((k0, q) :: rest))
        with (List.length q + queuedActions rest)%nat.
      change (queuedActions ((k0, q0) :: rest))
        with (List.length q0 + queuedActions rest)%nat.
      lia.
    + change (queuedActions ((k0, q0) :: setBlocks rest k q))
        with (List.length q0 + queuedActions (setBlocks rest k q))%nat.
      change (queuedActions ((k0, q0) :: rest))
        with (List.length q0 + queuedActions rest)%nat.
      lia.
Qed.

(** X21: a block dropped while playing restarts every program: all queued
    blocks of all sprites, the new one included, get a new timer, on top of
    the timers that are still pending from before; while stopped a drop
    schedules nothing. *)
Theorem drop_reschedules (dateNow : N) (data : ActionBlock.t)
  (spriteId : string) (w : World) :
  List.length (timers (handleActionDrop dateNow (Some data) spriteId w))
  = (List.length (timers w)
     + if isPlaying w then S (queuedActions (actionBlocks w)) else 0)%nat.
Proof.
  unfold handleActionDrop, setActionBlocks. rewrite runEffects_count.
  cbn [timers isPlaying actionBlocks spreadBlocks fold_left fst snd].
  destruct (isPlaying w); [|reflexivity].
  pose proof (queuedActions_setBlocks (actionBlocks w) spriteId
                (blocksOrEmpty (actionBlocks w) spriteId
                 ++ [ActionBlock.mk (actionIdAt dateNow)
                       (ActionBlock.type data) (ActionBlock.value data)
                       (ActionBlock.duration data) (ActionBlock.x data)
                       (ActionBlock.y data) (ActionBlock.repeat data)
                       (ActionBlock.label data)])) as H.
  rewrite length_app in H. cbn [List.length] in H. lia.
Qed.

(** * Dragging a sprite on the stage *)

(** X22: a drop on the stage ends the drag and changes nothing but
    positions: every sprite keeps its id, type, direction, size, velocity,
    flags and texts; the sprites with the dragged id land at the pointer
    relative to the stage corner, with no clamp; and when the stage is not
    mounted, or no sprite has the dragged id, the sprites are unchanged. *)
Theorem handleDrop_moves_only (spriteId : string)
  (clientX clientY left top : JS.number) (ed : Editor) :
  let dropped := handleDrop spriteId clientX clientY left top ed in
  isDragging dropped = false
  /\ map (fun s => (untouched s, velocity s, Sprite.saying s))
       (sprites (world dropped))
     = map (fun s => (untouched s, velocity s, Sprite.saying s))
         (sprites (world ed))
  /\ (stageRef (world ed) = None -> world dropped = world ed)
  /\ (Forall (fun s => Sprite.id s <> spriteId) (sprites (world ed)) ->
      sprites (world dropped) = sprites (world ed))
  /\ (stageRef (world ed) <> None ->
      forall s, In s (sprites (world dropped)) -> Sprite.id s = spriteId ->
                position s = (clientX - left, clientY - top)%float).
Proof.
  cbv zeta. unfold handleDrop. cbn [isDragging world].
  split; [reflexivity|].
  destruct (stageRef (world ed)) as [el|] eqn:Hstage.
  - cbn [setSprites sprites]. split; [|split; [discriminate | split]].
    + rewrite map_map. apply map_ext. intros s.
      now destruct (String.eqb (Sprite.id s) spriteId).
    + intros Hnone. induction Hnone as [|s l Hs _ IH]; cbn [map];
        [reflexivity|].
      apply String.eqb_neq in Hs. now rewrite Hs, IH.
    + intros _ s Hin Hid. apply in_map_iff in Hin.
      destruct Hin as (s0 & Hs & _).
      destruct (String.eqb (Sprite.id s0) spriteId) eqn:E.
      * now subst s.
      * subst s. apply String.eqb_neq in E. contradiction.
  - split; [reflexivity | split; [reflexivity | split]].
    + reflexivity.
    + intros H. now contradiction H.
Qed.
